(** * easy-config: the layered configuration loader of [config.py]

    A shallow embedding of [Config] (merge with key validation, path
    resolution, the load pipeline and the section accessor) and the
    properties of its specification that were checked against it.

    Conventions of the embedding.
    - A parsed document is a tree of Python objects: [value].  No node is
      shared between two places of a tree (no YAML alias).  A [dict] keeps
      its insertion order and is an association list; its keys are strings,
      and Python guarantees that they are unique, which is the predicate
      [wf].
    - A method that mutates an argument in place returns the new content of
      that argument.  The sections of the store are objects of a heap, so
      that a copy can be told from the object itself.
    - [print] appends to the standard output, [exit] ends the process with a
      code, an uncaught exception reaches the caller: [outcome], [proc].
    - A [str] is held as the bytes of its UTF-8 encoding.
    - [yaml.safe_load] and the file system are the [world]; [pathlib] is the
      POSIX flavour ([PurePosixPath]).
    - [EasyDict] keeps the mapping that it is given and makes each key an
      attribute of the object, in each mapping that it converts
      ([hides_items]); an attribute hides the method of the same name.  The
      model of the store is partial: it is undefined ([None]) on the names
      that the instance or the interpreter's object protocol already use,
      see [section_name] and [dunder_free]. *)

From Stdlib Require Import List String Ascii ZArith Bool Arith Lia.
From Stdlib Require Import Floats.SpecFloat.
Import ListNotations.
Open Scope list_scope.
Open Scope string_scope.

Set Warnings "-register-all".

(** ** Python objects held by a configuration tree *)

(** [SubConfigType = dict | list | str | float | int], with the [None] and
    [bool] objects that the YAML loader also produces. *)
Inductive value : Type :=
| VNone
| VBool (b : bool)
| VInt (z : Z)
| VFloat (f : spec_float)
| VStr (s : string)
| VList (l : list value)
| VDict (items : list (string * value)).

(** What [type(x)] returns. *)
Inductive py_type : Type :=
| TNone | TBool | TInt | TFloat | TStr | TList | TDict.

Definition type_of (v : value) : py_type :=
  match v with
  | VNone => TNone
  | VBool _ => TBool
  | VInt _ => TInt
  | VFloat _ => TFloat
  | VStr _ => TStr
  | VList _ => TList
  | VDict _ => TDict
  end.

Definition py_type_eqb (a b : py_type) : bool :=
  match a, b with
  | TNone, TNone | TBool, TBool | TInt, TInt | TFloat, TFloat
  | TStr, TStr | TList, TList | TDict, TDict => true
  | _, _ => false
  end.

(** [str(type(x))], as an f-string renders it. *)
Definition type_repr (t : py_type) : string :=
  match t with
  | TNone => "<class 'NoneType'>"
  | TBool => "<class 'bool'>"
  | TInt => "<class 'int'>"
  | TFloat => "<class 'float'>"
  | TStr => "<class 'str'>"
  | TList => "<class 'list'>"
  | TDict => "<class 'dict'>"
  end.

(** [isinstance(x, dict)] *)
Definition is_dict (v : value) : bool :=
  match v with VDict _ => true | _ => false end.

(** ** Dictionaries *)

Definition dict := list (string * value).

(** [d.get(k)]: the value under the first (and, in a well-formed
    dictionary, only) entry of key [k]. *)
Fixpoint dict_get (d : dict) (k : string) : option value :=
  match d with
  | [] => None
  | (k', v) :: rest => if String.eqb k' k then Some v else dict_get rest k
  end.

(** [d[k] = v]: an existing key keeps its position, a new key goes last. *)
Fixpoint dict_set (d : dict) (k : string) (v : value) : dict :=
  match d with
  | [] => [(k, v)]
  | (k', v') :: rest =>
      if String.eqb k' k then (k', v) :: rest else (k', v') :: dict_set rest k v
  end.


Definition keys (d : dict) : list string := map fst d.

(** Keys are unique in every mapping of the tree. *)
Fixpoint nodupb (l : list string) : bool :=
  match l with
  | [] => true
  | k :: rest => negb (existsb (String.eqb k) rest) && nodupb rest
  end.

Fixpoint wf (v : value) : bool :=
  match v with
  | VList l => forallb wf l
  | VDict items =>
      nodupb (map fst items) && forallb (fun kv => wf (snd kv)) items
  | _ => true
  end.

(** The node reached from [v] by following the keys of [p] through
    mappings. *)
Fixpoint lookup_path (p : list string) (v : value) : option value :=
  match p with
  | [] => Some v
  | k :: p' =>
      match v with
      | VDict items =>
          match dict_get items k with
          | Some w => lookup_path p' w
          | None => None
          end
      | _ => None
      end
  end.

(** ** Messages *)

Definition nl : string := String (ascii_of_nat 10) "".
Definition esc : string := String (ascii_of_nat 27) "".

Definition _make_bold (s : string) : string :=
  let bold := esc ++ "[1m" in
  let end_bold := esc ++ "[0m" in
  bold ++ s ++ end_bold.

Definition _get_delimiter : string := "->".

(** [f'{config_name} has different types: {type(default_cfg)} and {type(local_cfg)}\n'] *)
Definition different_types_msg (config_name : string) (default_cfg local_cfg : value) : string :=
  config_name ++ " has different types: " ++ type_repr (type_of default_cfg)
    ++ " and " ++ type_repr (type_of local_cfg) ++ nl.

(** [f'No key in {config_name} {_get_delimiter()} {_make_bold(key)}\n'] *)
Definition no_key_msg (config_name key : string) : string :=
  "No key in " ++ config_name ++ " " ++ _get_delimiter ++ " " ++ _make_bold key ++ nl.

(** [f'{config_name} {_get_delimiter()} {key}'] *)
Definition sub_name (config_name key : string) : string :=
  config_name ++ " " ++ _get_delimiter ++ " " ++ key.

(** The label under which the merge reports the node at path [p]. *)
Definition path_label (config_name : string) (p : list string) : string :=
  fold_left sub_name p config_name.

(** ** Merge and validation: [Config._update_config] *)

(** The result of a call: the content of [default_cfg] after the call, the
    content of [issues_to_print] after the call, the returned flag. *)
Definition merged : Type := value * list string * bool.

Section UpdateItems.

(** The recursive call of [_update_config]. *)
Variable rec : value -> value -> string -> list string -> merged.

(** The loop [for key, value in local_cfg.items()] over the entries that
    are left, with the current content of [default_cfg], of
    [issues_to_print] and of [result]. *)
Fixpoint update_items (items : dict) (default_cfg : dict) (config_name : string)
    (issues : list string) (result : bool) : dict * list string * bool :=
  match items with
  | [] => (default_cfg, issues, result)
  | (key, value) :: rest =>
      match dict_get default_cfg key with
      | None =>
          update_items rest default_cfg config_name
            (issues ++ [no_key_msg config_name key])%list false
      | Some cfg1 =>
          match value with
          | VDict _ =>
              let new_str := sub_name config_name key in
              let '(cfg1', issues', r) := rec cfg1 value new_str issues in
              update_items rest (dict_set default_cfg key cfg1') config_name
                issues' (r && result)
          | _ =>
              update_items rest (dict_set default_cfg key value) config_name
                issues result
          end
      end
  end.

End UpdateItems.

Fixpoint _update_config (default_cfg local_cfg : value) (config_name : string)
    (issues_to_print : list string) {struct local_cfg} : merged :=
  if negb (py_type_eqb (type_of default_cfg) (type_of local_cfg)) then
    (default_cfg,
     (issues_to_print ++ [different_types_msg config_name default_cfg local_cfg])%list,
     false)
  else
    match local_cfg, default_cfg with
    | VDict litems, VDict ditems =>
        let '(d, issues, result) :=
          update_items _update_config litems ditems config_name issues_to_print true in
        (VDict d, issues, result)
    | _, _ => (default_cfg, issues_to_print, true)
    end.

(** ** Outcomes of a call *)

Inductive exn : Type :=
| FileNotFoundError | YAMLError | TypeError | KeyError | AttributeError.

(** A call returns, lets an exception escape to its caller, or ends the
    process ([exit] raises [SystemExit], which ends the interpreter with the
    given code). *)
Inductive outcome (A : Type) : Type :=
| Return (a : A)
| Raise (e : exn)
| Exit (code : Z).
Arguments Return {A} a.
Arguments Raise {A} e.
Arguments Exit {A} code.

Definition bind {A B : Type} (m : outcome A) (f : A -> outcome B) : outcome B :=
  match m with
  | Return a => f a
  | Raise e => Raise e
  | Exit c => Exit c
  end.

Notation "x <- m ;; k" := (bind m (fun x => k))
  (at level 61, m at next level, right associativity).

(** ** Strings: [in] and [strip] *)

(** [needle in hay] *)
Fixpoint contains (needle hay : string) : bool :=
  if String.prefix needle hay then true
  else match hay with
       | EmptyString => false
       | String _ hay' => contains needle hay'
       end.

(** [str.strip()] removes the white space at both ends of a string: the
    characters U+0009-000D, U+001C-0020, U+0085, U+00A0, U+1680,
    U+2000-200A, U+2028, U+2029, U+202F, U+205F and U+3000.  A string is
    held as the bytes of its UTF-8 encoding, in which these characters take
    one, two or three bytes. *)
Definition is_space (c : ascii) : bool :=
  let n := nat_of_ascii c in
  ((9 <=? n)%nat && (n <=? 13)%nat) || ((28 <=? n)%nat && (n <=? 32)%nat).

(** U+0085 and U+00A0 *)
Definition is_space2 (c1 c2 : ascii) : bool :=
  let b := nat_of_ascii c2 in
  (nat_of_ascii c1 =? 194)%nat && ((b =? 133)%nat || (b =? 160)%nat).

(** U+1680; U+2000-200A, U+2028, U+2029 and U+202F; U+205F; U+3000 *)
Definition is_space3 (c1 c2 c3 : ascii) : bool :=
  let a := nat_of_ascii c1 in
  let b := nat_of_ascii c2 in
  let c := nat_of_ascii c3 in
  ((a =? 225)%nat && (b =? 154)%nat && (c =? 128)%nat)
  || ((a =? 226)%nat && (b =? 128)%nat
      && (((128 <=? c)%nat && (c <=? 138)%nat)
          || (c =? 168)%nat || (c =? 169)%nat || (c =? 175)%nat))
  || ((a =? 226)%nat && (b =? 129)%nat && (c =? 159)%nat)
  || ((a =? 227)%nat && (b =? 128)%nat && (c =? 128)%nat).

(** The string without the white space that it starts with, for the given
    tests of a character of two and of three bytes. *)
Fixpoint lstrip_by (two : ascii -> ascii -> bool) (three : ascii -> ascii -> ascii -> bool)
    (s : string) : string :=
  match s with
  | EmptyString => EmptyString
  | String c1 s1 =>
      if is_space c1 then lstrip_by two three s1
      else match s1 with
           | EmptyString => s
           | String c2 s2 =>
               if two c1 c2 then lstrip_by two three s2
               else match s2 with
                    | EmptyString => s
                    | String c3 s3 =>
                        if three c1 c2 c3 then lstrip_by two three s3 else s
                    end
           end
  end.

Definition lstrip (s : string) : string := lstrip_by is_space2 is_space3 s.

Definition string_rev (s : string) : string :=
  string_of_list_ascii (rev (list_ascii_of_string s)).

(** The white space at the end is the one that the reversed string starts
    with, the bytes of each character in reverse order. *)
Definition rstrip (s : string) : string :=
  string_rev (lstrip_by (fun c2 c1 => is_space2 c1 c2)
                        (fun c3 c2 c1 => is_space3 c1 c2 c3) (string_rev s)).

Definition strip (s : string) : string := rstrip (lstrip s).

(** ** [pathlib], POSIX flavour *)

(** A parsed path: its root ([""], ["/"] or ["//"]) and its components. *)
Record PurePath : Type := { root : string; parts : list string }.

Definition slash : ascii := ascii_of_nat 47.

(** [s.split('/')] *)
Fixpoint split_sep (s : string) : list string :=
  match s with
  | EmptyString => [EmptyString]
  | String c s' =>
      if Ascii.eqb c slash then EmptyString :: split_sep s'
      else match split_sep s' with
           | [] => [String c EmptyString]
           | h :: t => String c h :: t
           end
  end.

(** ['/'.join(l)] *)
Fixpoint join_sep (l : list string) : string :=
  match l with
  | [] => EmptyString
  | [x] => x
  | x :: rest => x ++ String slash (join_sep rest)
  end.

(** [posixpath.splitroot], without the (always empty) drive. *)
Definition splitroot (p : string) : string * string :=
  match p with
  | String c0 r0 =>
      if Ascii.eqb c0 slash then
        match r0 with
        | String c1 r1 =>
            if Ascii.eqb c1 slash then
              match r1 with
              | String c2 _ =>
                  if Ascii.eqb c2 slash then ("/", r0) else ("//", r1)
              | EmptyString => ("//", r1)
              end
            else ("/", r0)
        | EmptyString => ("/", r0)
        end
      else ("", p)
  | EmptyString => ("", p)
  end.

(** A component that [_parse_path] keeps: [x and x != '.']. *)
Definition kept (x : string) : bool :=
  negb (String.eqb x "") && negb (String.eqb x ".").

(** [Path(s)] *)
Definition Path (s : string) : PurePath :=
  let '(rt, rel) := splitroot s in
  {| root := rt; parts := filter kept (split_sep rel) |}.

Definition is_absolute (p : PurePath) : bool := negb (String.eqb (root p) "").

(** [str(p)] *)
Definition path_str (p : PurePath) : string :=
  match root p, parts p with
  | EmptyString, [] => "."
  | rt, ps => rt ++ join_sep ps
  end.

(** [p.joinpath(s)] for a string [s]: an absolute [s] replaces [p]. *)
Definition joinpath (p : PurePath) (s : string) : PurePath :=
  let q := Path s in
  if is_absolute q then q
  else {| root := root p; parts := (parts p ++ parts q)%list |}.

(** [p.absolute()] in a process whose working directory is [cwd]. *)
Definition absolute (cwd : string) (p : PurePath) : PurePath :=
  if is_absolute p then p
  else {| root := root (Path cwd); parts := (parts (Path cwd) ++ parts p)%list |}.

(** [Path(x)] and [p.joinpath(x)] on an object of the tree: anything but a
    [str] is refused with [TypeError]. *)
Definition Path_of (x : value) : outcome PurePath :=
  match x with
  | VStr s => Return (Path s)
  | _ => Raise TypeError
  end.

Definition joinpath_of (p : PurePath) (x : value) : outcome PurePath :=
  match x with
  | VStr s => Return (joinpath p s)
  | _ => Raise TypeError
  end.

(** ** Path resolution: [Config._set_absolute_paths] *)

Section SetAbsolutePaths.

(** [self._working_dir] and [self._resources_dir] *)
Variables _working_dir _resources_dir : PurePath.

(** The loop [for sub_key, sub_value in value.items()] of the
    ["resources"] branch, with the current content of [value]. *)
Fixpoint resources_items (items : dict) (value : dict) : outcome dict :=
  match items with
  | [] => Return value
  | (sub_key, sub_value) :: rest =>
      p <- joinpath_of _resources_dir sub_value ;;
      resources_items rest (dict_set value sub_key (VStr (path_str p)))
  end.

(** The recursive call of [_set_absolute_paths]. *)
Variable rec : value -> outcome value.

(** The loop [for key, value in d.items()], with the current content of
    [d].  When [key] is visited [d[key]] still is the object [value]: only
    keys visited before have been assigned. *)
Fixpoint paths_items (items : dict) (d : dict) : outcome dict :=
  match items with
  | [] => Return d
  | (key, value) :: rest =>
      match value with
      | VDict sub =>
          if String.eqb (strip key) "resources" then
            sub' <- resources_items sub sub ;;
            paths_items rest (dict_set d key (VDict sub'))
          else
            value' <- rec value ;;
            paths_items rest (dict_set d key value')
      | VNone => paths_items rest d
      | _ =>
          if contains "path" key then
            p <- joinpath_of _working_dir value ;;
            paths_items rest (dict_set d key (VStr (path_str p)))
          else if contains "location" key then
            p <- joinpath_of _resources_dir value ;;
            paths_items rest (dict_set d key (VStr (path_str p)))
          else paths_items rest d
      end
  end.

End SetAbsolutePaths.

(** [d.items()] on anything but a mapping is an [AttributeError]; the
    pipeline and the recursion only pass mappings. *)
Fixpoint _set_absolute_paths (_working_dir _resources_dir : PurePath) (d : value)
    {struct d} : outcome value :=
  match d with
  | VDict items =>
      items' <- paths_items _working_dir _resources_dir
                  (_set_absolute_paths _working_dir _resources_dir) items items ;;
      Return (VDict items')
  | _ => Raise AttributeError
  end.

(** ** The process: standard output and the files it can read *)

(** A computation that prints: the lines printed, then how it ended. *)
Definition proc (A : Type) : Type := list string * outcome A.

Definition pbind {A B : Type} (m : proc A) (f : A -> proc B) : proc B :=
  match m with
  | (out, Return a) => let '(out', r) := f a in ((out ++ out')%list, r)
  | (out, Raise e) => (out, Raise e)
  | (out, Exit c) => (out, Exit c)
  end.

Notation "x <-- m ;; k" := (pbind m (fun x => k))
  (at level 61, m at next level, right associativity).
Notation "' pat <-- m ;; k" := (pbind m (fun x => match x with pat => k end))
  (at level 61, pat pattern, m at next level, right associativity).

Definition lift {A : Type} (m : outcome A) : proc A := ([], m).
Definition print (s : string) : proc unit := ([s], Return tt).
(** [exit(code)]; [exit()] is [exit(0)] for the interpreter. *)
Definition exit {A : Type} (code : Z) : proc A := ([], Exit code).

(** What [yaml.safe_load] makes of a file that exists: a syntax error, or
    the document; an empty document loads as [None]. *)
Inductive file : Type :=
| Unparseable
| Document (content : value).

Record world : Type := {
  files : string -> option file;   (* [None]: no such file *)
  cwd : string                     (* [os.getcwd()] *)
}.

(** [Path(source).exists()] *)
Definition exists_ (w : world) (source : string) : bool :=
  match files w source with Some _ => true | None => false end.

(** [Config._read_config] *)
Definition _read_config (w : world) (source : value) : proc value :=
  match source with
  | VStr s =>
      match files w s with
      | None => lift (Raise FileNotFoundError)       (* open(source, 'r') *)
      | Some Unparseable => lift (Raise YAMLError)   (* yaml.safe_load(stream) *)
      | Some (Document VNone) =>
          _ <-- print (s ++ " is empty. Fill it, please.") ;; exit 0
      | Some (Document config) => lift (Return config)
      end
  | _ => lift (Raise TypeError)
  end.

(** [x[k]] for a string [k] *)
Definition getitem (x : value) (k : string) : outcome value :=
  match x with
  | VDict d =>
      match dict_get d k with
      | Some v => Return v
      | None => Raise KeyError
      end
  | _ => Raise TypeError
  end.

(** [x[k] = v] for a string [k] *)
Definition setitem (x : value) (k : string) (v : value) : outcome value :=
  match x with
  | VDict d => Return (VDict (dict_set d k v))
  | _ => Raise TypeError
  end.

(** ** The store: [Config] *)











(** The instance: its private attributes and [sections], the attributes
    that [reset] creates, each bound to the address of its object.  The
    names of [sections] are section names. *)
Record Config : Type := {
  _keys : list string;
  _user_source : string;
  _default_source : string;
  _working_dir : option PurePath;
  _resources_dir : option PurePath;
  sections : list (string * nat)
}.






(** The report that [_load_config] prints. *)
Definition report (config_issues : list string) (default_source user_source : string) : string :=
  "Problem(s) with configs:" ++ nl ++ String.concat "" config_issues ++ nl
    ++ "Check and correct your " ++ _make_bold default_source
    ++ " and " ++ _make_bold user_source ++ "!".

(** Lines 81-86 of [_load_config]: the base directories, then the
    resolution of the paths of the merged tree. *)
Definition resolve_config (w : world) (self : Config) (config : value)
  : outcome (Config * value) :=
  general <- getitem config "general" ;;
  x <- getitem general "working_dir" ;;
  p <- Path_of x ;;
  let working_dir := absolute (cwd w) p in
  general <- getitem config "general" ;;
  x <- getitem general "resources_dir" ;;
  p <- Path_of x ;;
  let resources_dir := absolute (cwd w) p in
  general <- getitem config "general" ;;
  general <- setitem general "working_dir" (VStr (path_str working_dir)) ;;
  config <- setitem config "general" general ;;
  config <- _set_absolute_paths working_dir resources_dir config ;;
  Return ({| _keys := _keys self;
             _user_source := _user_source self;
             _default_source := _default_source self;
             _working_dir := Some working_dir;
             _resources_dir := Some resources_dir;
             sections := sections self |}, config).

(** Lines 65-68 of [_load_config]: the two trees. *)
Definition read_sources (w : world) (self : Config) : proc (value * value) :=
  config <-- _read_config w (VStr (_default_source self)) ;;
  local_config <-- (if exists_ w (_user_source self)
                    then _read_config w (VStr (_user_source self))
                    else lift (Return (VDict []))) ;;
  lift (Return (config, local_config)).

(** Lines 74-79 of [_load_config]: the report and the exit. *)
Definition check_issues (self : Config) (config_issues : list string) (is_valid : bool)
  : proc unit :=
  _ <-- (if (1 <? List.length config_issues)%nat
         then print (report config_issues (_default_source self) (_user_source self))
         else lift (Return tt)) ;;
  if negb is_valid then exit 0 else lift (Return tt).

(** [Config._load_config]: the instance and the tree that it returns. *)
Definition _load_config (w : world) (self : Config) : proc (Config * value) :=
  '(config, local_config) <-- read_sources w self ;;
  let '(config, config_issues, is_valid) :=
    _update_config config local_config (_default_source self) [] in
  _ <-- check_issues self config_issues is_valid ;;
  lift (resolve_config w self config).









(** ** Notions used by the statements *)

(** A path in normal form, as [Path] builds it: the root is one that
    [splitroot] returns, no component is empty, is ["."] or holds a
    separator. *)
Fixpoint has_slash (x : string) : bool :=
  match x with
  | EmptyString => false
  | String c x' => Ascii.eqb c slash || has_slash x'
  end.

Definition component_ok (x : string) : bool := kept x && negb (has_slash x).

Definition root_ok (r : string) : bool :=
  String.eqb r "" || String.eqb r "/" || String.eqb r "//".

Definition path_ok (p : PurePath) : bool :=
  root_ok (root p) && forallb component_ok (parts p).

(** A transformation of the values of a mapping, entry by entry and in
    order; the first entry that fails decides the outcome. *)
Fixpoint map_items (f : string -> value -> outcome value) (d : dict) : outcome dict :=
  match d with
  | [] => Return []
  | (k, v) :: rest =>
      v' <- f k v ;;
      rest' <- map_items f rest ;;
      Return ((k, v') :: rest')
  end.

(** The rule for an entry of a ["resources"] mapping: its value is joined
    to the resources directory. *)
Definition resource_entry (resources_dir : PurePath) (_ : string) (sub_value : value)
  : outcome value :=
  p <- joinpath_of resources_dir sub_value ;; Return (VStr (path_str p)).

(** The rule of the path-resolution pass for one key/value pair, written
    from its description: the entries of a mapping under ["resources"] are
    joined to the resources directory, any other mapping is resolved in
    turn, a leaf that is not [None] is joined to the working directory under
    a key with ["path"], to the resources directory under a key with
    ["location"], and is kept otherwise. *)
Definition resolved_pair (working_dir resources_dir : PurePath) (key : string) (v : value)
  : outcome value :=
  match v with
  | VDict sub =>
      if String.eqb (strip key) "resources" then
        sub' <- map_items (resource_entry resources_dir) sub ;;
        Return (VDict sub')
      else _set_absolute_paths working_dir resources_dir v
  | VNone => Return VNone
  | _ =>
      if contains "path" key then
        p <- joinpath_of working_dir v ;; Return (VStr (path_str p))
      else if contains "location" key then
        p <- joinpath_of resources_dir v ;; Return (VStr (path_str p))
      else Return v
  end.


(** The local tree that [_load_config] merges: [{}] when the user source
    does not exist, else the document of the user source. *)
Definition local_tree (w : world) (self : Config) (local_config : value) : Prop :=
  match files w (_user_source self) with
  | None => local_config = VDict []
  | Some f => f = Document local_config /\ local_config <> VNone
  end.

(** The runs that end in [exit]: a source that is read loads as [None], or
    the merge returns [False]. *)
Inductive graceful_abort (w : world) (self : Config) : Prop :=
| default_empty :
    files w (_default_source self) = Some (Document VNone) ->
    graceful_abort w self
| user_empty config :
    files w (_default_source self) = Some (Document config) ->
    config <> VNone ->
    files w (_user_source self) = Some (Document VNone) ->
    graceful_abort w self
| merge_invalid config local_config :
    files w (_default_source self) = Some (Document config) ->
    config <> VNone ->
    local_tree w self local_config ->
    snd (_update_config config local_config (_default_source self) []) = false ->
    graceful_abort w self.

(** ** The merge, entry by entry *)

(** The value that the merge leaves under a key of the default mapping. *)
Definition merged_entry (name k : string) (dv : value) (lv : option value) : value :=
  match lv with
  | None => dv
  | Some v =>
      if is_dict v then fst (fst (_update_config dv v (sub_name name k) [])) else v
  end.

(** What one entry of the local mapping adds to the issues, and whether it
    keeps the result valid, given the value of the default under its key. *)
Definition entry_issues (name k : string) (dv : option value) (v : value) : list string :=
  match dv with
  | None => [no_key_msg name k]
  | Some cfg1 =>
      if is_dict v then snd (fst (_update_config cfg1 v (sub_name name k) [])) else []
  end.

Definition entry_valid (name k : string) (dv : option value) (v : value) : bool :=
  match dv with
  | None => false
  | Some cfg1 => if is_dict v then snd (_update_config cfg1 v (sub_name name k) []) else true
  end.

Definition entry_tree (name k : string) (d : dict) (v : value) : dict :=
  match dict_get d k with
  | None => d
  | Some cfg1 => dict_set d k (merged_entry name k cfg1 (Some v))
  end.

(** The issues that a merge of [l] into [d] has to record, as the
    specification lists them, read off the two trees as they are given: the
    one "has different types" message where the kinds differ; for two
    mappings, entry by entry of the local one and in order, the one "No key"
    message of a key that the default mapping does not have, and what is
    expected of the two values under a key that it has when the local value
    is a mapping. *)
Fixpoint expected_issues (d l : value) (name : string) {struct l} : list string :=
  if negb (py_type_eqb (type_of d) (type_of l)) then [different_types_msg name d l]
  else
    match l, d with
    | VDict litems, VDict ditems =>
        flat_map (fun kv =>
                    match dict_get ditems (fst kv) with
                    | None => [no_key_msg name (fst kv)]
                    | Some dv =>
                        if is_dict (snd kv)
                        then expected_issues dv (snd kv) (sub_name name (fst kv))
                        else []
                    end) litems
    | _, _ => []
    end.

(** ** Example inputs *)

(** The instance that [__init__] hands to [reset], with the default names
    of the two sources. *)
Definition example_config : Config :=
  {| _keys := [];
     _user_source := "configs/config.yaml";
     _default_source := "configs/config-default.yaml";
     _working_dir := None;
     _resources_dir := None;
     sections := [] |}.

(** A process in [/home/u] that sees at most the two sources. *)
Definition example_world (user default : option file) : world :=
  {| files := fun s =>
       if String.eqb s "configs/config-default.yaml" then default
       else if String.eqb s "configs/config.yaml" then user
       else None;
     cwd := "/home/u" |}.

Definition example_default : value :=
  VDict [("general", VDict [("working_dir", VStr ".");
                            ("resources_dir", VStr "./res");
                            ("timeout", VInt 30)]);
         ("model", VDict [("weights_path", VStr "w.bin")]);
         ("resources", VDict [("icon", VStr "logo.png")]);
         ("feature", VDict [("threshold", VInt 5)]);
         ("extra", VNone)].

Definition example_paths_tree : dict :=
  [("model", VDict [("weights_path", VStr "w.bin")]);
   (" resources ", VDict [("icon", VStr "logo.png")]);
   ("data_location", VStr "d.csv");
   ("names", VList [VStr "path"]);
   ("log_path", VNone)].



(** The key [resources] after a no-break space (U+00A0) and before an
    ideographic space (U+3000), in UTF-8. *)
Definition example_spaced_key : string :=
  String (ascii_of_nat 194) (String (ascii_of_nat 160)
    ("resources" ++ String (ascii_of_nat 227) (String (ascii_of_nat 128)
                      (String (ascii_of_nat 128) "")))).

(** ** Further notions used by the statements *)

(** Two trees that the merge accepts: the kinds agree, and each key of a
    local mapping is a key of the default mapping, under which the values
    are accepted in turn when the local one is a mapping. *)
Fixpoint compatible (d l : value) {struct l} : bool :=
  py_type_eqb (type_of d) (type_of l) &&
  match l, d with
  | VDict litems, VDict ditems =>
      forallb (fun kv =>
                 match dict_get ditems (fst kv) with
                 | None => false
                 | Some dv => if is_dict (snd kv) then compatible dv (snd kv) else true
                 end) litems
  | _, _ => true
  end.

Definition is_str (v : value) : bool :=
  match v with VStr _ => true | _ => false end.

(** A string that is an absolute path. *)
Definition is_absolute_str (v : value) : bool :=
  match v with VStr s => is_absolute (Path s) | _ => false end.

(** The values of a tree that the path-resolution pass joins to a base
    directory all satisfy [ok]: the entries of a mapping under ["resources"],
    and the leaves other than [None] under a key with ["path"] or
    ["location"]. *)
Fixpoint joined_values (ok : value -> bool) (v : value) : bool :=
  match v with
  | VDict items =>
      forallb (fun kv =>
                 match snd kv with
                 | VDict sub =>
                     if String.eqb (strip (fst kv)) "resources"
                     then forallb (fun sv => ok (snd sv)) sub
                     else joined_values ok (snd kv)
                 | VNone => true
                 | x =>
                     if contains "path" (fst kv) || contains "location" (fst kv)
                     then ok x else true
                 end) items
  | _ => true
  end.


(** * Properties *)

(** ** Induction on trees *)

Section ValueInd.

Variable P : value -> Prop.
Hypothesis HNone : P VNone.
Hypothesis HBool : forall b, P (VBool b).
Hypothesis HInt : forall z, P (VInt z).
Hypothesis HFloat : forall f, P (VFloat f).
Hypothesis HStr : forall s, P (VStr s).
Hypothesis HList : forall l, Forall P l -> P (VList l).
Hypothesis HDict : forall items, Forall (fun kv => P (snd kv)) items -> P (VDict items).

Lemma value_tree_ind : forall v, P v.
Proof.
  fix IH 1. intros [ | b | z | f | s | l | items].
  - exact HNone.
  - apply HBool.
  - apply HInt.
  - apply HFloat.
  - apply HStr.
  - apply HList. induction l as [ | x l IHl]; constructor; [apply IH | exact IHl].
  - apply HDict. induction items as [ | [k x] items IHl]; constructor;
      [apply IH | exact IHl].
Qed.

End ValueInd.

(** ** Dictionaries *)

Lemma dict_get_set_same d k v : dict_get (dict_set d k v) k = Some v.
Proof.
  induction d as [ | [k' v'] d IH]; simpl.
  - now rewrite String.eqb_refl.
  - destruct (String.eqb k' k) eqn:E; simpl; rewrite E; [reflexivity | exact IH].
Qed.

Lemma dict_get_set_other d k k' v :
  k <> k' -> dict_get (dict_set d k v) k' = dict_get d k'.
Proof.
  intros Hne. induction d as [ | [k0 v0] d IH]; simpl.
  - destruct (String.eqb k k') eqn:E; [apply String.eqb_eq in E; contradiction | reflexivity].
  - destruct (String.eqb k0 k) eqn:E; simpl.
    + apply String.eqb_eq in E; subst k0.
      destruct (String.eqb k k') eqn:E'; [apply String.eqb_eq in E'; contradiction | reflexivity].
    + destruct (String.eqb k0 k'); [reflexivity | exact IH].
Qed.

Lemma dict_set_same d k v : dict_get d k = Some v -> dict_set d k v = d.
Proof.
  induction d as [ | [k0 v0] d IH]; simpl; [discriminate | ].
  destruct (String.eqb k0 k) eqn:E.
  - intros [= ->]. reflexivity.
  - intros H. now rewrite IH.
Qed.

Lemma keys_set_present d k v x : dict_get d k = Some x -> keys (dict_set d k v) = keys d.
Proof.
  induction d as [ | [k0 v0] d IH]; simpl; [discriminate | ].
  destruct (String.eqb k0 k) eqn:E; simpl.
  - reflexivity.
  - intros H. f_equal. now apply IH.
Qed.

Lemma dict_get_None_set d k k' v x :
  dict_get d k = Some x -> dict_get d k' = None -> dict_get (dict_set d k v) k' = None.
Proof.
  intros Hk Hk'. rewrite dict_get_set_other; [exact Hk' | ].
  intros ->. congruence.
Qed.



Lemma nodupb_cons k l :
  nodupb (k :: l) = true <-> ~ In k l /\ nodupb l = true.
Proof.
  simpl. rewrite andb_true_iff, negb_true_iff. split; intros [H1 H2]; split; try exact H2.
  - intros Hin. assert (existsb (String.eqb k) l = true) as E.
    { apply existsb_exists. exists k. split; [exact Hin | apply String.eqb_refl]. }
    congruence.
  - destruct (existsb (String.eqb k) l) eqn:E; [ | reflexivity].
    apply existsb_exists in E as (x & Hin & Hx). apply String.eqb_eq in Hx. subst x.
    contradiction.
Qed.

Lemma wf_dict_cons k v items :
  wf (VDict ((k, v) :: items)) = true <->
  ~ In k (keys items) /\ wf v = true /\ wf (VDict items) = true.
Proof.
  change (wf (VDict ((k, v) :: items)))
    with (nodupb (k :: map fst items) && (wf v && forallb (fun kv => wf (snd kv)) items)).
  change (wf (VDict items))
    with (nodupb (map fst items) && forallb (fun kv => wf (snd kv)) items).
  rewrite !andb_true_iff, nodupb_cons. unfold keys. tauto.
Qed.

Lemma wf_dict_get items k v :
  wf (VDict items) = true -> dict_get items k = Some v -> wf v = true.
Proof.
  induction items as [ | [k0 v0] items IH]; simpl dict_get; [discriminate | ].
  intros Hwf. apply wf_dict_cons in Hwf as (_ & Hv & Hrest).
  destruct (String.eqb k0 k); [intros [= <-]; exact Hv | now apply IH].
Qed.

(** ** Merge: unfolding and framing *)

Lemma update_config_mismatch d l name iss :
  type_of d <> type_of l ->
  _update_config d l name iss = (d, (iss ++ [different_types_msg name d l])%list, false).
Proof.
  intros H. destruct l; destruct d; simpl in *; try reflexivity; congruence.
Qed.

Lemma update_config_dicts dm lm name iss :
  _update_config (VDict dm) (VDict lm) name iss =
  (VDict (fst (fst (update_items _update_config lm dm name iss true))),
   snd (fst (update_items _update_config lm dm name iss true)),
   snd (update_items _update_config lm dm name iss true)).
Proof.
  simpl. destruct (update_items _update_config lm dm name iss true) as [[d' i'] r'].
  reflexivity.
Qed.

(** The issues of a call are appended to those already there. *)
Lemma update_items_issues_app items :
  Forall (fun kv => forall d name iss,
            _update_config d (snd kv) name iss =
            (fst (fst (_update_config d (snd kv) name [])),
             (iss ++ snd (fst (_update_config d (snd kv) name [])))%list,
             snd (_update_config d (snd kv) name []))) items ->
  forall d name iss res,
    update_items _update_config items d name iss res =
    (fst (fst (update_items _update_config items d name [] true)),
     (iss ++ snd (fst (update_items _update_config items d name [] true)))%list,
     snd (update_items _update_config items d name [] true) && res).
Proof.
  induction 1 as [ | [k v] items Hv _ IH]; intros d name iss res.
  - simpl. now rewrite app_nil_r.
  - simpl in Hv. simpl update_items.
    destruct (dict_get d k) as [cfg1 | ] eqn:Ek.
    + destruct v as [ | b | z | f | s | l | sub];
        try (rewrite (IH _ _ iss res), (IH _ _ [] true), andb_true_r; reflexivity).
      rewrite (Hv cfg1 (sub_name name k) iss).
      destruct (_update_config cfg1 (VDict sub) (sub_name name k) []) as [[c1 i1] r1].
      cbn [fst snd].
      rewrite (IH _ _ (iss ++ i1)%list (r1 && res)), (IH _ _ i1 (r1 && true)).
      cbn [fst snd]. rewrite app_assoc, andb_true_r, andb_assoc. reflexivity.
    + rewrite (IH _ _ (iss ++ [no_key_msg name k])%list false).
      rewrite (IH _ _ ([] ++ [no_key_msg name k])%list false).
      cbn [fst snd]. rewrite !andb_false_r, app_assoc. reflexivity.
Qed.

Lemma update_config_issues_app l : forall d name iss,
  _update_config d l name iss =
  (fst (fst (_update_config d l name [])),
   (iss ++ snd (fst (_update_config d l name [])))%list,
   snd (_update_config d l name [])).
Proof.
  induction l as [ | b | z | f | s | l _ | items IH] using value_tree_ind; intros d name iss;
    try (destruct d; simpl; rewrite ?app_nil_r; reflexivity).
  destruct d as [ | b | z | f | s | l | dm]; try (simpl; reflexivity).
  rewrite !update_config_dicts. cbn [fst snd].
  rewrite (update_items_issues_app items IH dm name iss true).
  cbn [fst snd]. now rewrite andb_true_r.
Qed.

(** The loop keeps the set of keys of [default_cfg], and so does a call. *)
Lemma update_items_keys items :
  Forall (fun kv => forall d name iss,
            type_of (fst (fst (_update_config d (snd kv) name iss))) = type_of d) items ->
  forall d name iss res k,
    dict_get (fst (fst (update_items _update_config items d name iss res))) k = None <->
    dict_get d k = None.
Proof.
  induction 1 as [ | [k0 v] items Hv _ IH]; intros d name iss res k; [simpl; tauto | ].
  simpl update_items. destruct (dict_get d k0) as [cfg1 | ] eqn:Ek; [ | apply IH].
  assert (forall x, dict_get (dict_set d k0 x) k = None <-> dict_get d k = None) as Hset.
  { intros x. destruct (String.eqb k0 k) eqn:E.
    - apply String.eqb_eq in E. subst k. rewrite dict_get_set_same, Ek. split; discriminate.
    - apply String.eqb_neq in E. now rewrite dict_get_set_other. }
  destruct v as [ | b | z | f | s | l | sub]; try (rewrite IH; apply Hset).
  destruct (_update_config cfg1 (VDict sub) (sub_name name k0) iss) as [[c1 i1] r1].
  rewrite IH. apply Hset.
Qed.

Lemma update_config_type l : forall d name iss,
  type_of (fst (fst (_update_config d l name iss))) = type_of d.
Proof.
  intros d name iss. destruct l; destruct d; simpl; try reflexivity.
  destruct (update_items _update_config items items0 name iss true) as [[d' i'] r'].
  reflexivity.
Qed.

Lemma update_items_get_None items d name iss res k :
  dict_get (fst (fst (update_items _update_config items d name iss res))) k = None <->
  dict_get d k = None.
Proof.
  apply update_items_keys. apply Forall_forall. intros kv _ d0 n0 i0.
  apply update_config_type.
Qed.

(** An entry of [default_cfg] whose key the local mapping does not have is
    not touched by the loop. *)
Lemma update_items_frame items : forall d name iss res k,
  ~ In k (keys items) ->
  dict_get (fst (fst (update_items _update_config items d name iss res))) k = dict_get d k.
Proof.
  induction items as [ | [k0 v] items IH]; intros d name iss res k Hk; [reflexivity | ].
  simpl in Hk. assert (k0 <> k /\ ~ In k (keys items)) as [Hne Hk'] by tauto.
  simpl update_items. destruct (dict_get d k0) as [cfg1 | ] eqn:Ek; [ | now apply IH].
  destruct v as [ | b | z | f | s | l | sub];
    try (rewrite IH by exact Hk'; now apply dict_get_set_other).
  destruct (_update_config cfg1 (VDict sub) (sub_name name k0) iss) as [[c1 i1] r1].
  rewrite IH by exact Hk'. now apply dict_get_set_other.
Qed.

Lemma update_items_get items : forall d name iss res k dv,
  nodupb (keys items) = true ->
  dict_get d k = Some dv ->
  dict_get (fst (fst (update_items _update_config items d name iss res))) k =
  Some (merged_entry name k dv (dict_get items k)).
Proof.
  induction items as [ | [k0 v] items IH]; intros d name iss res k dv Hnd Hk;
    [exact Hk | ].
  apply nodupb_cons in Hnd as [Hk0 Hnd].
  simpl update_items. simpl dict_get.
  destruct (String.eqb k0 k) eqn:E.
  - apply String.eqb_eq in E. subst k0. rewrite Hk.
    destruct v as [ | b | z | f | s | l | sub];
      try (rewrite update_items_frame by exact Hk0; apply dict_get_set_same).
    unfold merged_entry, is_dict.
    rewrite (update_config_issues_app (VDict sub) dv (sub_name name k) iss).
    rewrite update_items_frame by exact Hk0. apply dict_get_set_same.
  - apply String.eqb_neq in E.
    destruct (dict_get d k0) as [cfg1 | ] eqn:Ek; [ | now apply IH].
    destruct v as [ | b | z | f | s | l | sub];
      try (apply IH; [exact Hnd | now rewrite dict_get_set_other]).
    destruct (_update_config cfg1 (VDict sub) (sub_name name k0) iss) as [[c1 i1] r1].
    apply IH; [exact Hnd | now rewrite dict_get_set_other].
Qed.

Lemma update_items_cons k v rest d name iss res :
  update_items _update_config ((k, v) :: rest) d name iss res =
  update_items _update_config rest (entry_tree name k d v) name
    (iss ++ entry_issues name k (dict_get d k) v)%list
    (entry_valid name k (dict_get d k) v && res).
Proof.
  simpl update_items. unfold entry_tree, entry_issues, entry_valid, merged_entry.
  destruct (dict_get d k) as [cfg1 | ]; [ | reflexivity].
  destruct v as [ | b | z | f | s | l | sub]; cbn [is_dict];
    try (rewrite app_nil_r; reflexivity).
  rewrite (update_config_issues_app (VDict sub) cfg1 (sub_name name k) iss).
  reflexivity.
Qed.

Lemma update_items_from_nil items d name iss res :
  update_items _update_config items d name iss res =
  (fst (fst (update_items _update_config items d name [] true)),
   (iss ++ snd (fst (update_items _update_config items d name [] true)))%list,
   snd (update_items _update_config items d name [] true) && res).
Proof.
  apply update_items_issues_app. apply Forall_forall. intros kv _ d0 n0 i0.
  apply update_config_issues_app.
Qed.

Lemma entry_tree_get_other name k d v k' :
  k <> k' -> dict_get (entry_tree name k d v) k' = dict_get d k'.
Proof.
  intros Hne. unfold entry_tree. destruct (dict_get d k); [ | reflexivity].
  now apply dict_get_set_other.
Qed.

Lemma entry_tree_get_None name k d v k' :
  dict_get d k' = None -> dict_get (entry_tree name k d v) k' = None.
Proof.
  intros H. unfold entry_tree. destruct (dict_get d k) eqn:E; [ | exact H].
  eapply dict_get_None_set; eassumption.
Qed.

(** The issues and the verdict of one entry within those of the loop. *)
Lemma update_items_entry items : forall d name k v,
  nodupb (keys items) = true ->
  dict_get items k = Some v ->
  (exists pre post,
     snd (fst (update_items _update_config items d name [] true)) =
     (pre ++ entry_issues name k (dict_get d k) v ++ post)%list) /\
  (snd (update_items _update_config items d name [] true) = true ->
   entry_valid name k (dict_get d k) v = true).
Proof.
  induction items as [ | [k0 v0] items IH]; intros d name k v Hnd Hk; [discriminate | ].
  apply nodupb_cons in Hnd as [Hk0 Hnd].
  rewrite update_items_cons, update_items_from_nil. cbn [fst snd].
  simpl in Hk. destruct (String.eqb k0 k) eqn:E.
  - apply String.eqb_eq in E. subst k0. injection Hk as ->. split.
    + exists [], (snd (fst (update_items _update_config items (entry_tree name k d v) name [] true))).
      reflexivity.
    + rewrite andb_true_r. intros H. apply andb_true_iff in H. tauto.
  - apply String.eqb_neq in E.
    destruct (IH (entry_tree name k0 d v0) name k v Hnd Hk) as [(pre & post & Hi) Hv].
    rewrite entry_tree_get_other in Hi, Hv by exact E. split.
    + exists (entry_issues name k0 (dict_get d k0) v0 ++ pre)%list, post.
      rewrite Hi. simpl. now rewrite app_assoc.
    + intros H. apply andb_true_iff in H. tauto.
Qed.

Lemma wf_dict_inv items :
  wf (VDict items) = true ->
  nodupb (keys items) = true /\ Forall (fun kv => wf (snd kv) = true) items.
Proof.
  intros H. change (nodupb (keys items) && forallb (fun kv => wf (snd kv)) items = true) in H.
  apply andb_true_iff in H as [H1 H2]. split; [exact H1 | ].
  apply Forall_forall. intros kv Hin. rewrite forallb_forall in H2. now apply H2.
Qed.

(** Merging the same local tree again changes nothing and reports the same. *)
Lemma update_items_idem items :
  Forall (fun kv => wf (snd kv) = true ->
            forall d name,
              _update_config (fst (fst (_update_config d (snd kv) name []))) (snd kv) name [] =
              _update_config d (snd kv) name []) items ->
  nodupb (keys items) = true ->
  Forall (fun kv => wf (snd kv) = true) items ->
  forall d name,
    update_items _update_config items
      (fst (fst (update_items _update_config items d name [] true))) name [] true =
    update_items _update_config items d name [] true.
Proof.
  induction 1 as [ | [k v] items Hv _ IH]; intros Hnd Hwf d name; [reflexivity | ].
  apply nodupb_cons in Hnd as [Hk Hnd].
  inversion Hwf as [ | ? ? Hwv Hwf']; subst. cbn [snd] in Hv, Hwv.
  specialize (Hv Hwv). specialize (IH Hnd Hwf').
  rewrite (update_items_cons k v items d).
  rewrite (update_items_from_nil items (entry_tree name k d v)). cbn [fst snd].
  set (d1 := entry_tree name k d v).
  set (dF := fst (fst (update_items _update_config items d1 name [] true))).
  assert (dict_get dF k = dict_get d1 k) as HdF
    by (apply update_items_frame; exact Hk).
  rewrite update_items_cons.
  assert (entry_tree name k dF v = dF /\
          entry_issues name k (dict_get dF k) v = entry_issues name k (dict_get d k) v /\
          entry_valid name k (dict_get dF k) v = entry_valid name k (dict_get d k) v)
    as (Ht & Hi & Hr).
  { unfold entry_tree at 1. rewrite HdF. unfold d1, entry_tree.
    destruct (dict_get d k) as [dv | ] eqn:Ed.
    - rewrite dict_get_set_same. unfold entry_issues, entry_valid, merged_entry.
      destruct (is_dict v) eqn:Hd.
      + rewrite Hv. repeat split. apply dict_set_same.
        rewrite HdF. unfold d1, entry_tree. rewrite Ed, dict_get_set_same.
        unfold merged_entry. now rewrite Hd.
      + repeat split. apply dict_set_same.
        rewrite HdF. unfold d1, entry_tree. rewrite Ed, dict_get_set_same.
        unfold merged_entry. now rewrite Hd.
    - rewrite Ed. repeat split. }
  rewrite Ht, Hi, Hr. rewrite (update_items_from_nil items dF).
  unfold dF. rewrite IH. reflexivity.
Qed.

Lemma update_config_idem l :
  wf l = true ->
  forall d name,
    _update_config (fst (fst (_update_config d l name []))) l name [] =
    _update_config d l name [].
Proof.
  induction l as [ | b | z | f | s | l _ | items IH] using value_tree_ind;
    intros Hwf d name;
    try (destruct d; reflexivity).
  destruct d as [ | b | z | f | s | l | dm]; try reflexivity.
  apply wf_dict_inv in Hwf as [Hnd Hwf].
  rewrite (update_config_dicts dm). cbn [fst snd].
  rewrite update_config_dicts. rewrite update_items_idem by assumption.
  reflexivity.
Qed.

(** ** Merge: along a path *)

Lemma lookup_path_app p q t :
  lookup_path (p ++ q) t =
  match lookup_path p t with
  | Some x => lookup_path q x
  | None => None
  end.
Proof.
  revert t. induction p as [ | k p IH]; intros t; [reflexivity | ].
  simpl. destruct t; try reflexivity.
  destruct (dict_get items k); [apply IH | reflexivity].
Qed.

Lemma lookup_path_cons_inv k p t x :
  lookup_path (k :: p) t = Some x ->
  exists items w, t = VDict items /\ dict_get items k = Some w /\ lookup_path p w = Some x.
Proof.
  simpl. destruct t; try discriminate.
  destruct (dict_get items k) as [w | ] eqn:E; [ | discriminate].
  intros H. now exists items, w.
Qed.

Lemma wf_lookup_path p : forall t x,
  wf t = true -> lookup_path p t = Some x -> wf x = true.
Proof.
  induction p as [ | k p IH]; intros t x Hwf H.
  - now injection H as <-.
  - apply lookup_path_cons_inv in H as (items & w & -> & Hk & Hp).
    eapply IH; [ | exact Hp]. eapply wf_dict_get; eassumption.
Qed.

(** The call made for the nodes at a path that both trees follow through
    mappings: its tree, its issues and its verdict within those of the
    whole merge. *)
Lemma update_config_reach p : forall d l name dv lv,
  wf l = true ->
  lookup_path p d = Some dv ->
  lookup_path p l = Some lv ->
  p = [] \/ is_dict lv = true ->
  lookup_path p (fst (fst (_update_config d l name []))) =
    Some (fst (fst (_update_config dv lv (path_label name p) []))) /\
  (exists pre post,
     snd (fst (_update_config d l name [])) =
     (pre ++ snd (fst (_update_config dv lv (path_label name p) [])) ++ post)%list) /\
  (snd (_update_config d l name []) = true ->
   snd (_update_config dv lv (path_label name p) []) = true).
Proof.
  induction p as [ | k p IH]; intros d l name dv lv Hwf Hd Hl Hlv.
  - injection Hd as <-. injection Hl as <-. simpl. split; [reflexivity | split].
    + exists [], []. now rewrite app_nil_r.
    + trivial.
  - apply lookup_path_cons_inv in Hd as (dm & w & -> & Hdk & Hdp).
    apply lookup_path_cons_inv in Hl as (lm & lw & -> & Hlk & Hlp).
    assert (is_dict lw = true) as Hlw.
    { destruct p as [ | k' p'].
      - injection Hlp as ->. destruct Hlv as [Hlv | Hlv]; [discriminate | exact Hlv].
      - apply lookup_path_cons_inv in Hlp as (? & ? & -> & _). reflexivity. }
    assert (p = [] \/ is_dict lv = true) as Hlv'.
    { destruct Hlv as [Hlv | Hlv]; [discriminate | now right]. }
    pose proof (wf_dict_get _ _ _ Hwf Hlk) as Hwlw.
    apply wf_dict_inv in Hwf as [Hnd _].
    destruct (IH w lw (sub_name name k) dv lv Hwlw Hdp Hlp Hlv')
      as (Ht & (pre' & post' & Hi) & Hr).
    change (path_label name (k :: p)) with (path_label (sub_name name k) p).
    rewrite update_config_dicts. cbn [fst snd].
    destruct (update_items_entry lm dm name k lw Hnd Hlk) as [(pre & post & Hi') Hr'].
    rewrite Hdk in Hi', Hr'. unfold entry_issues, entry_valid in Hi', Hr'.
    rewrite Hlw in Hi', Hr'. repeat split.
    + simpl lookup_path. rewrite (update_items_get lm dm name [] true k w Hnd Hdk).
      rewrite Hlk. unfold merged_entry. rewrite Hlw. exact Ht.
    + exists (pre ++ pre')%list, (post' ++ post)%list. rewrite Hi', Hi.
      now rewrite <- !app_assoc.
    + intros H. apply Hr, Hr', H.
Qed.

(** A value of the default tree at a path that the local tree does not
    have survives, unless the local tree holds a leaf above it. *)
Lemma update_config_keeps q : forall d l name v,
  wf l = true ->
  lookup_path q d = Some v ->
  lookup_path q l = None ->
  (forall p s lv, q = (p ++ s)%list -> p <> [] -> s <> [] ->
                  lookup_path p l = Some lv -> is_dict lv = true) ->
  lookup_path q (fst (fst (_update_config d l name []))) = Some v.
Proof.
  induction q as [ | k q IH]; intros d l name v Hwf Hd Hl Hpre; [discriminate | ].
  apply lookup_path_cons_inv in Hd as (dm & w & -> & Hdk & Hdp).
  destruct (is_dict l) eqn:Hdl.
  2:{ rewrite update_config_mismatch.
      - simpl. now rewrite Hdk.
      - destruct l; simpl in *; congruence. }
  destruct l as [ | | | | | | lm]; try discriminate.
  rewrite update_config_dicts. cbn [fst snd]. simpl lookup_path.
  pose proof Hwf as Hwf0. apply wf_dict_inv in Hwf as [Hnd _].
  rewrite (update_items_get lm dm name [] true k w Hnd Hdk).
  simpl in Hl. destruct (dict_get lm k) as [lw | ] eqn:Hlk; [ | exact Hdp].
  assert (q <> []) as Hq by (intros ->; discriminate).
  assert (is_dict lw = true) as Hlw.
  { apply (Hpre [k] q lw); [reflexivity | discriminate | exact Hq | ].
    simpl. now rewrite Hlk. }
  unfold merged_entry. rewrite Hlw. apply IH; [ | exact Hdp | exact Hl | ].
  - eapply wf_dict_get; eassumption.
  - intros p s lv -> Hp Hs Hlv. apply (Hpre (k :: p) s lv); [reflexivity | discriminate | exact Hs | ].
    simpl. now rewrite Hlk.
Qed.

(** The issues of the loop, entry by entry. *)
Lemma update_items_contribs items : forall d name iss res,
  exists contribs,
    snd (fst (update_items _update_config items d name iss res)) =
      (iss ++ List.concat contribs)%list /\
    Forall2 (fun kv c => dict_get d (fst kv) = None -> c = [no_key_msg name (fst kv)])
      items contribs /\
    ((exists k, In k (keys items) /\ dict_get d k = None) \/ res = false ->
     snd (update_items _update_config items d name iss res) = false).
Proof.
  induction items as [ | [k v] items IH]; intros d name iss res.
  - exists []. simpl. rewrite app_nil_r. repeat split; [constructor | ].
    intros [(k & [] & _) | H]; exact H.
  - rewrite update_items_cons.
    destruct (IH (entry_tree name k d v) name
                (iss ++ entry_issues name k (dict_get d k) v)%list
                (entry_valid name k (dict_get d k) v && res))
      as (contribs & Hi & Hc & Hr).
    exists (entry_issues name k (dict_get d k) v :: contribs). repeat split.
    + rewrite Hi. simpl. now rewrite app_assoc.
    + constructor.
      * simpl. intros Hn. rewrite Hn. reflexivity.
      * eapply Forall2_impl; [ | exact Hc]. intros [k' v'] c Hk' Hn. apply Hk'.
        now apply entry_tree_get_None.
    + intros H. apply Hr. destruct H as [(k' & [<- | Hin] & Hn) | ->].
      * right. simpl in Hn. rewrite Hn. reflexivity.
      * left. exists k'. split; [exact Hin | now apply entry_tree_get_None].
      * right. apply andb_false_r.
Qed.

Lemma update_items_keys_eq items : forall d name iss res,
  keys (fst (fst (update_items _update_config items d name iss res))) = keys d.
Proof.
  induction items as [ | [k v] items IH]; intros d name iss res; [reflexivity | ].
  rewrite update_items_cons, IH. unfold entry_tree.
  destruct (dict_get d k) as [cfg1 | ] eqn:E; [ | reflexivity].
  now apply (keys_set_present d k _ cfg1).
Qed.


(** ** Paths: [Path] and [str] are inverse on normal forms *)

Lemma split_sep_no_slash x : has_slash x = false -> split_sep x = [x].
Proof.
  induction x as [ | c x IH]; simpl; [reflexivity | ].
  intros H. apply orb_false_iff in H as [Hc Hx]. rewrite Hc, IH by exact Hx. reflexivity.
Qed.

Lemma split_sep_app x y :
  has_slash x = false -> split_sep (x ++ String slash y) = x :: split_sep y.
Proof.
  induction x as [ | c x IH]; simpl.
  - intros _. reflexivity.
  - intros H. apply orb_false_iff in H as [Hc Hx]. rewrite Hc, IH by exact Hx. reflexivity.
Qed.

Lemma split_join_sep x l :
  forallb component_ok (x :: l) = true -> split_sep (join_sep (x :: l)) = x :: l.
Proof.
  revert x. induction l as [ | y l IH]; intros x H.
  - simpl in H. rewrite andb_true_r in H. unfold component_ok in H.
    apply andb_true_iff in H as [_ H]. apply negb_true_iff in H.
    now apply split_sep_no_slash.
  - change (join_sep (x :: y :: l)) with (x ++ String slash (join_sep (y :: l))).
    change (forallb component_ok (x :: y :: l))
      with (component_ok x && forallb component_ok (y :: l)) in H.
    apply andb_true_iff in H as [Hx H]. unfold component_ok in Hx.
    apply andb_true_iff in Hx as [_ Hx]. apply negb_true_iff in Hx.
    rewrite split_sep_app by exact Hx. now rewrite IH.
Qed.

Lemma split_sep_slashless s : Forall (fun x => has_slash x = false) (split_sep s).
Proof.
  induction s as [ | c s IH]; simpl.
  - constructor; [reflexivity | constructor].
  - destruct (Ascii.eqb c slash) eqn:E.
    + constructor; [reflexivity | exact IH].
    + destruct (split_sep s) as [ | h t]; constructor.
      * simpl. now rewrite E.
      * constructor.
      * simpl. rewrite E. now inversion IH.
      * now inversion IH.
Qed.

Lemma filter_kept_ok l :
  Forall (fun x => has_slash x = false) l ->
  forallb component_ok (filter kept l) = true.
Proof.
  induction 1 as [ | x l Hx _ IH]; [reflexivity | ].
  cbn [filter]. destruct (kept x) eqn:E; [ | exact IH].
  cbn [forallb]. unfold component_ok at 1. rewrite E, Hx. exact IH.
Qed.

Lemma filter_kept_all l :
  forallb component_ok l = true -> filter kept l = l.
Proof.
  induction l as [ | x l IH]; [reflexivity | ].
  cbn [forallb filter]. intros H. apply andb_true_iff in H as [Hx H].
  unfold component_ok in Hx. apply andb_true_iff in Hx as [Hx _].
  rewrite Hx. now rewrite IH.
Qed.

Lemma splitroot_root_ok s : root_ok (fst (splitroot s)) = true.
Proof.
  unfold splitroot. destruct s as [ | c0 r0]; [reflexivity | ].
  destruct (Ascii.eqb c0 slash); [ | reflexivity].
  destruct r0 as [ | c1 r1]; [reflexivity | ].
  destruct (Ascii.eqb c1 slash); [ | reflexivity].
  destruct r1 as [ | c2 r2]; [reflexivity | ].
  destruct (Ascii.eqb c2 slash); reflexivity.
Qed.

Lemma Path_ok s : path_ok (Path s) = true.
Proof.
  unfold Path, path_ok. pose proof (splitroot_root_ok s) as H.
  destruct (splitroot s) as [rt rel]. simpl in *. rewrite H. simpl.
  apply filter_kept_ok, split_sep_slashless.
Qed.

Lemma joinpath_ok b s : path_ok b = true -> path_ok (joinpath b s) = true.
Proof.
  intros Hb. unfold joinpath. destruct (is_absolute (Path s)); [apply Path_ok | ].
  pose proof (Path_ok s) as Hs. unfold path_ok in *. simpl.
  apply andb_true_iff in Hb as [Hr Hp]. apply andb_true_iff in Hs as [_ Hq].
  rewrite Hr, forallb_app, Hp, Hq. reflexivity.
Qed.

(** The base directories of the pipeline, [Path(...).absolute()], are in
    normal form, and absolute as the working directory of the process is. *)
Lemma absolute_ok c p : path_ok p = true -> path_ok (absolute c p) = true.
Proof.
  intros Hp. unfold absolute. destruct (is_absolute p); [exact Hp | ].
  pose proof (Path_ok c) as Hc. unfold path_ok in *. simpl.
  apply andb_true_iff in Hp as [_ Hp]. apply andb_true_iff in Hc as [Hr Hq].
  rewrite Hr, forallb_app, Hp, Hq. reflexivity.
Qed.

(** The first character of a joined, non-empty list of components is not a
    separator. *)
Lemma join_sep_head x l :
  forallb component_ok (x :: l) = true ->
  exists c r, join_sep (x :: l) = String c r /\ Ascii.eqb c slash = false.
Proof.
  intros H. simpl in H. apply andb_true_iff in H as [Hx _]. unfold component_ok, kept in Hx.
  destruct x as [ | c x]; [discriminate | ].
  simpl in Hx. rewrite !andb_true_iff in Hx. destruct Hx as [_ Hx].
  apply negb_true_iff, orb_false_iff in Hx as [Hc _].
  exists c. destruct l as [ | y l].
  - exists x. now split.
  - exists (x ++ String slash (join_sep (y :: l))). now split.
Qed.

Lemma Path_relative x l :
  forallb component_ok (x :: l) = true ->
  Path (join_sep (x :: l)) = {| root := ""; parts := x :: l |}.
Proof.
  intros Hp. destruct (join_sep_head x l Hp) as (c & r & Hj & Hc).
  unfold Path. rewrite Hj. unfold splitroot. rewrite Hc, <- Hj.
  rewrite split_join_sep by exact Hp. now rewrite filter_kept_all.
Qed.

Lemma Path_rooted x l :
  forallb component_ok (x :: l) = true ->
  Path (String slash (join_sep (x :: l))) = {| root := "/"; parts := x :: l |}.
Proof.
  intros Hp. destruct (join_sep_head x l Hp) as (c & r & Hj & Hc).
  unfold Path. rewrite Hj. unfold splitroot. rewrite Ascii.eqb_refl, Hc, <- Hj.
  rewrite split_join_sep by exact Hp. now rewrite filter_kept_all.
Qed.

Lemma Path_rooted_twice x l :
  forallb component_ok (x :: l) = true ->
  Path (String slash (String slash (join_sep (x :: l)))) = {| root := "//"; parts := x :: l |}.
Proof.
  intros Hp. destruct (join_sep_head x l Hp) as (c & r & Hj & Hc).
  unfold Path. rewrite Hj. unfold splitroot. rewrite !Ascii.eqb_refl, Hc, <- Hj.
  rewrite split_join_sep by exact Hp. now rewrite filter_kept_all.
Qed.

Lemma Path_path_str p : path_ok p = true -> Path (path_str p) = p.
Proof.
  destruct p as [rt ps]. unfold path_ok. cbn [root parts]. intros H.
  apply andb_true_iff in H as [Hr Hp]. unfold root_ok in Hr.
  rewrite !orb_true_iff in Hr. destruct Hr as [[Hr | Hr] | Hr];
    apply String.eqb_eq in Hr; subst rt; (destruct ps as [ | x l]; [reflexivity | ]).
  - now apply Path_relative.
  - now apply Path_rooted.
  - now apply Path_rooted_twice.
Qed.

Lemma joinpath_absolute b s : is_absolute b = true -> is_absolute (joinpath b s) = true.
Proof.
  intros Hb. unfold joinpath. destruct (is_absolute (Path s)) eqn:E; [exact E | exact Hb].
Qed.

(** Joining a base to a string that is an absolute path gives that path. *)
Lemma joinpath_absolute_arg b s : is_absolute (Path s) = true -> joinpath b s = Path s.
Proof. intros H. unfold joinpath. now rewrite H. Qed.

Lemma joinpath_str_absolute b q :
  path_ok q = true -> is_absolute q = true -> joinpath b (path_str q) = q.
Proof.
  intros Hq Ha. rewrite joinpath_absolute_arg; rewrite Path_path_str by exact Hq; auto.
Qed.

Lemma joinpath_again b s :
  path_ok b = true -> is_absolute b = true ->
  joinpath b (path_str (joinpath b s)) = joinpath b s.
Proof.
  intros Hb Ha. apply joinpath_str_absolute; [now apply joinpath_ok | now apply joinpath_absolute].
Qed.

Lemma absolute_is_absolute c p :
  is_absolute (Path c) = true -> is_absolute (absolute c p) = true.
Proof.
  intros Hc. unfold absolute. destruct (is_absolute p) eqn:E; [exact E | exact Hc].
Qed.

(** ** Path resolution: the loops as maps *)

Lemma nodupb_NoDup l : nodupb l = true <-> NoDup l.
Proof.
  induction l as [ | k l IH].
  - split; [constructor | reflexivity].
  - rewrite nodupb_cons, IH. split.
    + intros [H1 H2]. now constructor.
    + intros H. inversion H; subst. now split.
Qed.

Lemma dict_set_app_notin done k v v' rest :
  ~ In k (keys done) ->
  dict_set (done ++ (k, v) :: rest)%list k v' = (done ++ (k, v') :: rest)%list.
Proof.
  induction done as [ | [k0 v0] done IH]; simpl; intros H.
  - now rewrite String.eqb_refl.
  - destruct (String.eqb k0 k) eqn:E.
    + apply String.eqb_eq in E. tauto.
    + rewrite IH by tauto. reflexivity.
Qed.

Lemma keys_app (a b : dict) : keys (a ++ b)%list = (keys a ++ keys b)%list.
Proof. apply map_app. Qed.

Lemma resources_items_map rd rest : forall done,
  NoDup (keys (done ++ rest)%list) ->
  resources_items rd rest (done ++ rest)%list =
  (rest' <- map_items (resource_entry rd) rest ;; Return (done ++ rest')%list).
Proof.
  induction rest as [ | [k v] rest IH]; intros done Hnd; [reflexivity | ].
  simpl resources_items. simpl map_items. unfold resource_entry at 1.
  destruct (joinpath_of rd v) as [p | e | c]; simpl; try reflexivity.
  rewrite dict_set_app_notin.
  - change (done ++ (k, VStr (path_str p)) :: rest)%list
      with (done ++ [(k, VStr (path_str p))] ++ rest)%list.
    rewrite app_assoc, IH.
    + destruct (map_items (resource_entry rd) rest); simpl; try reflexivity.
      now rewrite <- app_assoc.
    + rewrite <- app_assoc. rewrite keys_app in *. exact Hnd.
  - rewrite keys_app in Hnd. apply NoDup_remove_2 in Hnd. intros H. apply Hnd.
    apply in_or_app. now left.
Qed.

Lemma paths_items_cons wd rd k v rest d :
  dict_get d k = Some v ->
  wf v = true ->
  paths_items wd rd (_set_absolute_paths wd rd) ((k, v) :: rest) d =
  (v' <- resolved_pair wd rd k v ;;
   paths_items wd rd (_set_absolute_paths wd rd) rest (dict_set d k v')).
Proof.
  intros Hk Hwf. pose proof (dict_set_same d k v Hk) as Hsame.
  destruct v as [ | b | z | f | s | l | sub]; simpl paths_items; unfold resolved_pair;
    try (destruct (contains "path" k); [reflexivity | ];
         destruct (contains "location" k); [reflexivity | ];
         simpl; now rewrite Hsame).
  - simpl. now rewrite Hsame.
  - destruct (String.eqb (strip k) "resources"); [ | reflexivity].
    apply wf_dict_inv in Hwf as [Hnd _]. apply nodupb_NoDup in Hnd.
    rewrite (resources_items_map rd sub [] Hnd : resources_items rd sub sub = _).
    destruct (map_items (resource_entry rd) sub); reflexivity.
Qed.

Lemma paths_items_map wd rd rest : forall done,
  NoDup (keys (done ++ rest)%list) ->
  Forall (fun kv => wf (snd kv) = true) rest ->
  paths_items wd rd (_set_absolute_paths wd rd) rest (done ++ rest)%list =
  (rest' <- map_items (resolved_pair wd rd) rest ;; Return (done ++ rest')%list).
Proof.
  induction rest as [ | [k v] rest IH]; intros done Hnd Hwf; [reflexivity | ].
  inversion Hwf as [ | ? ? Hv Hwf']; subst. cbn [snd] in Hv.
  assert (~ In k (keys done)) as Hk.
  { rewrite keys_app in Hnd. apply NoDup_remove_2 in Hnd. intros H. apply Hnd.
    apply in_or_app. now left. }
  rewrite paths_items_cons; [ | | exact Hv].
  2:{ clear - Hk. induction done as [ | [k0 v0] done IHd]; simpl.
      - now rewrite String.eqb_refl.
      - simpl in Hk. destruct (String.eqb k0 k) eqn:E;
          [apply String.eqb_eq in E; tauto | apply IHd; tauto]. }
  simpl map_items.
  destruct (resolved_pair wd rd k v) as [v' | e | c]; simpl; try reflexivity.
  rewrite dict_set_app_notin by exact Hk.
  change (done ++ (k, v') :: rest)%list with (done ++ [(k, v')] ++ rest)%list.
  rewrite app_assoc, IH.
  - destruct (map_items (resolved_pair wd rd) rest); simpl; try reflexivity.
    now rewrite <- app_assoc.
  - rewrite <- app_assoc. rewrite keys_app in *. exact Hnd.
  - exact Hwf'.
Qed.

(** The pass on a mapping applies the rule to each of its pairs. *)
Lemma set_absolute_paths_map wd rd d :
  wf (VDict d) = true ->
  _set_absolute_paths wd rd (VDict d) =
  (d' <- map_items (resolved_pair wd rd) d ;; Return (VDict d')).
Proof.
  intros Hwf. apply wf_dict_inv in Hwf as [Hnd Hwf]. apply nodupb_NoDup in Hnd.
  simpl _set_absolute_paths.
  rewrite (paths_items_map wd rd d [] Hnd Hwf
           : paths_items wd rd (_set_absolute_paths wd rd) d d = _).
  destruct (map_items (resolved_pair wd rd) d); reflexivity.
Qed.

Lemma map_items_keys f d : forall d', map_items f d = Return d' -> keys d' = keys d.
Proof.
  induction d as [ | [k v] d IH]; simpl; intros d'.
  - now intros [= <-].
  - destruct (f k v) as [v' | | ]; simpl; try discriminate.
    destruct (map_items f d) as [r | | ]; simpl; try discriminate.
    intros [= <-]. simpl. f_equal. now apply IH.
Qed.

Lemma map_items_Forall2 f d : forall d',
  map_items f d = Return d' ->
  Forall2 (fun kv kv' => fst kv' = fst kv /\ f (fst kv) (snd kv) = Return (snd kv')) d d'.
Proof.
  induction d as [ | [k v] d IH]; simpl; intros d'.
  - intros [= <-]. constructor.
  - destruct (f k v) as [v' | | ] eqn:E; simpl; try discriminate.
    destruct (map_items f d) as [r | | ]; simpl; try discriminate.
    intros [= <-]. constructor; [now split | now apply IH].
Qed.

(** ** Path resolution: a second pass changes nothing *)

Lemma map_items_idem f d : forall d',
  map_items f d = Return d' ->
  (forall k v v', In (k, v) d -> f k v = Return v' -> f k v' = Return v') ->
  map_items f d' = Return d'.
Proof.
  induction d as [ | [k v] d IH]; simpl; intros d' H Hf.
  - now injection H as <-.
  - destruct (f k v) as [v' | | ] eqn:E; simpl in H; try discriminate.
    destruct (map_items f d) as [r | | ] eqn:Er; simpl in H; try discriminate.
    injection H as <-. simpl.
    rewrite (Hf k v v') by (auto; now left). simpl.
    rewrite (IH r eq_refl); [reflexivity | ].
    intros k0 v0 v0' Hin. apply Hf. now right.
Qed.

Lemma map_items_wf f d : forall d',
  map_items f d = Return d' ->
  nodupb (keys d) = true ->
  (forall k v v', In (k, v) d -> f k v = Return v' -> wf v' = true) ->
  wf (VDict d') = true.
Proof.
  intros d' H Hnd Hf.
  change (nodupb (keys d') && forallb (fun kv => wf (snd kv)) d' = true).
  rewrite (map_items_keys f d d' H), Hnd. simpl.
  revert d' H. clear Hnd. induction d as [ | [k v] d IH]; simpl; intros d' H.
  - now injection H as <-.
  - destruct (f k v) as [v' | | ] eqn:E; simpl in H; try discriminate.
    destruct (map_items f d) as [r | | ] eqn:Er; simpl in H; try discriminate.
    injection H as <-. simpl. rewrite (Hf k v v') by (auto; now left). simpl.
    apply IH; [ | reflexivity]. intros k0 v0 v0' Hin. apply (Hf k0 v0 v0'). now right.
Qed.

Lemma joinpath_of_inv b v p :
  joinpath_of b v = Return p -> exists s, v = VStr s /\ p = joinpath b s.
Proof.
  destruct v; simpl; try discriminate. intros [= <-]. now exists s.
Qed.

Section Idempotence.

Variables wd rd : PurePath.
Hypothesis wd_ok : path_ok wd = true.
Hypothesis wd_abs : is_absolute wd = true.
Hypothesis rd_ok : path_ok rd = true.
Hypothesis rd_abs : is_absolute rd = true.

Lemma resource_entry_idem k v v' :
  resource_entry rd k v = Return v' ->
  resource_entry rd k v' = Return v' /\ wf v' = true.
Proof.
  unfold resource_entry. destruct (joinpath_of rd v) as [p | | ] eqn:E; simpl; try discriminate.
  intros [= <-]. apply joinpath_of_inv in E as (s & -> & ->). simpl.
  now rewrite joinpath_again.
Qed.

Lemma set_absolute_paths_returns_dict v v' :
  _set_absolute_paths wd rd v = Return v' -> is_dict v' = true.
Proof.
  destruct v; simpl; try discriminate.
  destruct (paths_items wd rd (_set_absolute_paths wd rd) items items); simpl; try discriminate.
  now intros [= <-].
Qed.

Lemma set_absolute_paths_idem v :
  wf v = true ->
  forall v', _set_absolute_paths wd rd v = Return v' ->
             _set_absolute_paths wd rd v' = Return v' /\ wf v' = true.
Proof.
  induction v as [ | b | z | f | s | l _ | d IH] using value_tree_ind;
    intros Hwf v' H; try discriminate.
  rewrite set_absolute_paths_map in H by exact Hwf.
  destruct (map_items (resolved_pair wd rd) d) as [d' | | ] eqn:Hm; simpl in H; try discriminate.
  injection H as <-.
  pose proof Hwf as Hwf0. apply wf_dict_inv in Hwf as [Hnd Hwfd].
  assert (forall k v v', In (k, v) d -> resolved_pair wd rd k v = Return v' ->
                         resolved_pair wd rd k v' = Return v' /\ wf v' = true) as Hpair.
  { intros k v v' Hin Hr.
    rewrite Forall_forall in IH, Hwfd.
    specialize (IH _ Hin). specialize (Hwfd _ Hin). cbn [snd] in IH, Hwfd.
    destruct v as [ | b | z | f | s | l | sub]; unfold resolved_pair in Hr;
      try (destruct (contains "path" k) eqn:Ep;
           [ | destruct (contains "location" k) eqn:El];
           [ destruct (joinpath_of wd _) as [p | | ] eqn:E; simpl in Hr; try discriminate;
             injection Hr as <-; apply joinpath_of_inv in E as (s0 & Hs & ->);
             unfold resolved_pair; rewrite Ep; simpl; now rewrite joinpath_again
           | destruct (joinpath_of rd _) as [p | | ] eqn:E; simpl in Hr; try discriminate;
             injection Hr as <-; apply joinpath_of_inv in E as (s0 & Hs & ->);
             unfold resolved_pair; rewrite Ep, El; simpl; now rewrite joinpath_again
           | injection Hr as <-; unfold resolved_pair; rewrite Ep, El; now split ]).
    - injection Hr as <-. now split.
    - destruct (String.eqb (strip k) "resources") eqn:Er.
      + destruct (map_items (resource_entry rd) sub) as [sub' | | ] eqn:Es;
          simpl in Hr; try discriminate.
        injection Hr as <-. unfold resolved_pair. rewrite Er.
        apply wf_dict_inv in Hwfd as [Hnds _]. split.
        * rewrite (map_items_idem _ _ _ Es); [reflexivity | ].
          intros k0 v0 v0' _ H0. now apply (resource_entry_idem k0 v0 v0').
        * apply (map_items_wf _ _ _ Es Hnds).
          intros k0 v0 v0' _ H0. now apply (resource_entry_idem k0 v0 v0').
      + destruct (IH Hwfd v' Hr) as [H1 H2]. split; [ | exact H2].
        pose proof (set_absolute_paths_returns_dict _ _ Hr) as Hd.
        destruct v'; try discriminate. unfold resolved_pair. rewrite Er. exact H1. }
  assert (wf (VDict d') = true) as Hwf'.
  { apply (map_items_wf _ _ _ Hm Hnd). intros k v v' Hin Hr. now apply (Hpair k v v'). }
  split; [ | exact Hwf'].
  rewrite set_absolute_paths_map by exact Hwf'.
  rewrite (map_items_idem _ _ _ Hm); [reflexivity | ].
  intros k v v' Hin Hr. now apply (Hpair k v v').
Qed.

End Idempotence.

(** ** Path resolution never ends the process *)

Lemma joinpath_of_no_exit b v c : joinpath_of b v <> Exit c.
Proof. destruct v; discriminate. Qed.

Lemma resources_items_no_exit rd items : forall d c, resources_items rd items d <> Exit c.
Proof.
  induction items as [ | [k v] items IH]; intros d c; simpl; [discriminate | ].
  destruct (joinpath_of rd v) eqn:E; simpl; try discriminate.
  - apply IH.
  - intros [= ->]. now apply joinpath_of_no_exit in E.
Qed.

Lemma paths_items_no_exit wd rd rec items :
  Forall (fun kv => forall c, rec (snd kv) <> Exit c) items ->
  forall d c, paths_items wd rd rec items d <> Exit c.
Proof.
  induction 1 as [ | [k v] items Hv _ IH]; intros d c; simpl; [discriminate | ].
  assert (forall b (K : PurePath -> outcome dict),
            (forall p, K p <> Exit c) -> (p <- joinpath_of b v ;; K p) <> Exit c) as Hj.
  { intros b K HK. destruct (joinpath_of b v) eqn:E; simpl; try discriminate; [apply HK | ].
    intros [= ->]. now apply joinpath_of_no_exit in E. }
  destruct v as [ | b | z | f | s | l | sub];
    try (destruct (contains "path" k); [apply Hj; intros; apply IH | ];
         destruct (contains "location" k); [apply Hj; intros; apply IH | apply IH]).
  - apply IH.
  - destruct (String.eqb (strip k) "resources").
    + destruct (resources_items rd sub sub) eqn:E; simpl; try discriminate; [apply IH | ].
      intros [= ->]. now apply resources_items_no_exit in E.
    + cbn [snd] in Hv. specialize (Hv c).
      destruct (rec (VDict sub)) eqn:E; simpl; try discriminate; [apply IH | ].
      intros [= ->]. now apply Hv.
Qed.

Lemma set_absolute_paths_no_exit wd rd v : forall c, _set_absolute_paths wd rd v <> Exit c.
Proof.
  induction v as [ | b | z | f | s | l _ | d IH] using value_tree_ind; intros c;
    try discriminate.
  simpl. destruct (paths_items wd rd (_set_absolute_paths wd rd) d d) eqn:E; simpl;
    try discriminate.
  intros [= ->]. now apply (paths_items_no_exit wd rd _ d IH) in E.
Qed.

(** * The merge and its validation *)

Lemma update_items_valid_no_issues items :
  Forall (fun kv => forall d name,
            snd (_update_config d (snd kv) name []) = true ->
            snd (fst (_update_config d (snd kv) name [])) = []) items ->
  forall d name,
    snd (update_items _update_config items d name [] true) = true ->
    snd (fst (update_items _update_config items d name [] true)) = [].
Proof.
  induction 1 as [ | [k v] items Hv _ IH]; intros d name; [reflexivity | ].
  rewrite update_items_cons, update_items_from_nil. cbn [fst snd].
  rewrite andb_true_r. intros H. apply andb_true_iff in H as [Hr He].
  rewrite (IH _ _ Hr), app_nil_r. simpl.
  unfold entry_valid in He. unfold entry_issues.
  destruct (dict_get d k) as [cfg1 | ]; [ | discriminate].
  destruct (is_dict v); [ | reflexivity]. now apply Hv.
Qed.

Lemma update_config_valid_no_issues l : forall d name,
  snd (_update_config d l name []) = true ->
  snd (fst (_update_config d l name [])) = [].
Proof.
  induction l as [ | b | z | f | s | l _ | items IH] using value_tree_ind; intros d name;
    try (destruct d; simpl; intros H; (reflexivity || discriminate)).
  destruct d as [ | b | z | f | s | l | dm]; try (simpl; discriminate).
  rewrite update_config_dicts. cbn [fst snd]. now apply update_items_valid_no_issues.
Qed.

(** A leaf of the local tree under a key of the default tree takes the
    place of the default value, whatever the kinds of the two. *)
Lemma update_config_overwrites p k d l name v dv :
  wf l = true ->
  lookup_path (p ++ [k]) l = Some v ->
  is_dict v = false ->
  lookup_path (p ++ [k]) d = Some dv ->
  lookup_path (p ++ [k]) (fst (fst (_update_config d l name []))) = Some v.
Proof.
  intros Hwf Hl Hv Hd. rewrite lookup_path_app in Hl, Hd |- *.
  destruct (lookup_path p l) as [lv | ] eqn:Hpl; [ | discriminate].
  destruct (lookup_path p d) as [dv0 | ] eqn:Hpd; [ | discriminate].
  apply lookup_path_cons_inv in Hl as (lm & lw & -> & Hlk & Hlw).
  apply lookup_path_cons_inv in Hd as (dm & dw & -> & Hdk & Hdw).
  injection Hlw as ->. injection Hdw as ->.
  destruct (update_config_reach p d l name (VDict dm) (VDict lm) Hwf Hpd Hpl)
    as (Ht & _); [now right | ].
  rewrite Ht, update_config_dicts. cbn [fst snd]. simpl lookup_path.
  pose proof (wf_lookup_path p l _ Hwf Hpl) as Hwlm.
  apply wf_dict_inv in Hwlm as [Hnd _].
  rewrite (update_items_get lm dm _ [] true k dv Hnd Hdk), Hlk.
  unfold merged_entry. now rewrite Hv.
Qed.

(** C2, as the code has it.  At the root, and at every path that both trees
    follow through mappings and whose local value is a mapping, a local value
    whose kind differs from the kind of the default value is reported as a
    "has different types" issue under the label of the path, the result is
    invalid, and the default value at that path is left as it was.  A local
    value that is not a mapping is not compared: under a key of the default
    tree it replaces the default value, whatever the kinds of the two. *)
Theorem kind_mismatch_reported d l name :
  wf l = true ->
  (forall p dv lv,
      lookup_path p d = Some dv ->
      lookup_path p l = Some lv ->
      p = [] \/ is_dict lv = true ->
      type_of dv <> type_of lv ->
      snd (_update_config d l name []) = false /\
      In (different_types_msg (path_label name p) dv lv)
         (snd (fst (_update_config d l name []))) /\
      lookup_path p (fst (fst (_update_config d l name []))) = Some dv) /\
  (forall p k dv lv,
      lookup_path (p ++ [k]) d = Some dv ->
      lookup_path (p ++ [k]) l = Some lv ->
      is_dict lv = false ->
      lookup_path (p ++ [k]) (fst (fst (_update_config d l name []))) = Some lv).
Proof.
  intros Hwf. split.
  - intros p dv lv Hd Hl Hlv Hty.
    destruct (update_config_reach p d l name dv lv Hwf Hd Hl Hlv)
      as (Ht & (pre & post & Hi) & Hr).
    rewrite (update_config_mismatch dv lv _ [] Hty) in Ht, Hi, Hr. cbn [fst snd] in *.
    repeat split.
    + destruct (snd (_update_config d l name [])); [discriminate (Hr eq_refl) | reflexivity].
    + rewrite Hi. apply in_or_app. right. now left.
    + exact Ht.
  - intros p k dv lv Hd Hl Hlv. now apply (update_config_overwrites p k d l name lv dv).
Qed.

Lemma kind_mismatch_reported_witness :
  snd (_update_config (VDict [("a", VInt 1)]) (VDict [("a", VDict [("b", VInt 2)])])
         "cfg" []) = false /\
  In (different_types_msg (path_label "cfg" ["a"]) (VInt 1) (VDict [("b", VInt 2)]))
     (snd (fst (_update_config (VDict [("a", VInt 1)])
                  (VDict [("a", VDict [("b", VInt 2)])]) "cfg" []))) /\
  lookup_path ["a"]
    (fst (fst (_update_config (VDict [("a", VInt 1)])
                 (VDict [("a", VDict [("b", VInt 2)])]) "cfg" []))) = Some (VInt 1).
Proof.
  apply (proj1 (kind_mismatch_reported (VDict [("a", VInt 1)])
                  (VDict [("a", VDict [("b", VInt 2)])]) "cfg" eq_refl)
           ["a"] (VInt 1) (VDict [("b", VInt 2)])).
  - reflexivity.
  - reflexivity.
  - right. reflexivity.
  - simpl. discriminate.
Defined.

(** C2 fails where the default value is the mapping and the local value is
    a string: nothing is reported and the result is valid. *)
Lemma leaf_kind_mismatch_unreported :
  lookup_path ["a"] (VDict [("a", VDict [("b", VInt 1)])]) = Some (VDict [("b", VInt 1)]) /\
  lookup_path ["a"] (VDict [("a", VStr "x")]) = Some (VStr "x") /\
  type_of (VDict [("b", VInt 1)]) <> type_of (VStr "x") /\
  _update_config (VDict [("a", VDict [("b", VInt 1)])]) (VDict [("a", VStr "x")]) "cfg" []
  = (VDict [("a", VStr "x")], [], true).
Proof. repeat split. simpl. discriminate. Qed.

(** C4, as the code has it.  After the merge of a local tree into a default
    tree, a value of the default tree at a path that the local tree does not
    have is unchanged, provided that the local tree has no leaf at a proper
    prefix of the path (such a leaf replaces the default subtree); and a path
    of both trees whose local value is not a mapping holds the local value. *)
Theorem merge_keeps_and_overwrites d l name :
  wf l = true ->
  (forall q v,
      lookup_path q d = Some v ->
      lookup_path q l = None ->
      (forall p s lv, q = (p ++ s)%list -> p <> [] -> s <> [] ->
                      lookup_path p l = Some lv -> is_dict lv = true) ->
      lookup_path q (fst (fst (_update_config d l name []))) = Some v) /\
  (forall p k v dv,
      lookup_path (p ++ [k]) l = Some v ->
      is_dict v = false ->
      lookup_path (p ++ [k]) d = Some dv ->
      lookup_path (p ++ [k]) (fst (fst (_update_config d l name []))) = Some v).
Proof.
  intros Hwf. split.
  - intros q v Hd Hl Hpre. now apply update_config_keeps.
  - intros p k v dv Hl Hv Hd. now apply (update_config_overwrites p k d l name v dv).
Qed.

Lemma merge_keeps_and_overwrites_witness :
  lookup_path ["a"; "b"]
    (fst (fst (_update_config
                 (VDict [("a", VDict [("b", VInt 1); ("c", VInt 2)])])
                 (VDict [("a", VDict [("c", VInt 7)])]) "cfg" []))) = Some (VInt 1) /\
  lookup_path (["a"] ++ ["c"])
    (fst (fst (_update_config
                 (VDict [("a", VDict [("b", VInt 1); ("c", VInt 2)])])
                 (VDict [("a", VDict [("c", VInt 7)])]) "cfg" []))) = Some (VInt 7).
Proof.
  destruct (merge_keeps_and_overwrites
              (VDict [("a", VDict [("b", VInt 1); ("c", VInt 2)])])
              (VDict [("a", VDict [("c", VInt 7)])]) "cfg" eq_refl) as [H1 H2].
  split.
  - apply H1; [reflexivity | reflexivity | ].
    intros p s lv Hq Hp Hs Hl.
    destruct p as [ | k1 [ | k2 p]].
    + contradiction.
    + injection Hq as <- _. simpl in Hl. injection Hl as <-. reflexivity.
    + destruct p; [ | discriminate]. destruct s; [contradiction | discriminate].
  - apply (H2 ["a"] "c" (VInt 7) (VInt 2)); reflexivity.
Defined.

(** C4 fails for a key of a default mapping that the local tree replaces by
    a leaf: the key is only in the default tree and does not survive. *)
Lemma default_key_lost_under_leaf :
  lookup_path ["a"; "b"] (VDict [("a", VDict [("b", VInt 1)])]) = Some (VInt 1) /\
  lookup_path ["a"; "b"] (VDict [("a", VInt 5)]) = None /\
  lookup_path ["a"; "b"]
    (fst (fst (_update_config (VDict [("a", VDict [("b", VInt 1)])])
                 (VDict [("a", VInt 5)]) "cfg" []))) = None.
Proof. repeat split. Qed.

Lemma flat_map_ext_in {A B} (f g : A -> list B) l :
  (forall x, In x l -> f x = g x) -> flat_map f l = flat_map g l.
Proof.
  induction l as [ | x l IH]; intros H; [reflexivity | ].
  simpl. rewrite (H x) by now left. f_equal. apply IH. intros y Hy. apply H. now right.
Qed.

Lemma expected_issues_dicts dm lm name :
  expected_issues (VDict dm) (VDict lm) name =
  flat_map (fun kv =>
              match dict_get dm (fst kv) with
              | None => [no_key_msg name (fst kv)]
              | Some dv =>
                  if is_dict (snd kv)
                  then expected_issues dv (snd kv) (sub_name name (fst kv))
                  else []
              end) lm.
Proof. reflexivity. Qed.

(** The issues of the loop do not depend on what the loop has assigned so
    far: each entry is judged against the default mapping as it was. *)
Lemma update_items_expected items :
  Forall (fun kv => forall d name,
            snd (fst (_update_config d (snd kv) name [])) =
            expected_issues d (snd kv) name) items ->
  nodupb (keys items) = true ->
  forall d name,
    snd (fst (update_items _update_config items d name [] true)) =
    expected_issues (VDict d) (VDict items) name.
Proof.
  induction 1 as [ | [k v] items Hv _ IH]; intros Hnd d name; [reflexivity | ].
  apply nodupb_cons in Hnd as [Hk Hnd].
  rewrite update_items_cons, update_items_from_nil. cbn [fst snd].
  rewrite (IH Hnd), !expected_issues_dicts. cbn [flat_map fst snd app]. f_equal.
  - unfold entry_issues. destruct (dict_get d k) as [cfg1 | ]; [ | reflexivity].
    destruct (is_dict v); [apply Hv | reflexivity].
  - apply flat_map_ext_in. intros [k' v'] Hin. cbn [fst snd].
    rewrite entry_tree_get_other; [reflexivity | ].
    intros ->. apply Hk. unfold keys. now apply (in_map fst _ (k', v')).
Qed.

Lemma update_config_expected l :
  wf l = true ->
  forall d name iss,
    snd (fst (_update_config d l name iss)) = (iss ++ expected_issues d l name)%list.
Proof.
  intros Hwf d name iss. rewrite (update_config_issues_app l d name iss). cbn [fst snd].
  f_equal. revert Hwf d name. clear iss.
  induction l as [ | b | z | f | s | l _ | items IH] using value_tree_ind;
    intros Hwf d name;
    try (destruct d; reflexivity).
  destruct d as [ | b | z | f | s | l | dm]; try reflexivity.
  rewrite update_config_dicts. cbn [fst snd].
  apply wf_dict_inv in Hwf as [Hnd Hwf].
  apply update_items_expected; [ | exact Hnd].
  rewrite Forall_forall in IH, Hwf |- *. intros kv Hin d0 n0.
  now apply IH, Hwf.
Qed.

(** C5.  One merge of a local tree into a default tree records exactly the
    issues that the specification expects of the two trees as they are
    given, no more, no less and in the order of the local entries
    ([expected_issues]).  Where it compares a local mapping with the default
    mapping at the same path, these are the issues of the entries of the
    local mapping, one list after the other: for a key that the default
    mapping does not have, the one "No key" message of the key under the
    label of the path; they all are among the issues of the whole merge, so
    the merge does not stop at the first.  Such a key is not added to the
    default mapping, whose keys stay as they were, and the result of the
    whole merge is invalid. *)
Theorem unknown_keys_reported d l name iss :
  wf l = true ->
  snd (fst (_update_config d l name iss)) = (iss ++ expected_issues d l name)%list /\
  forall p dm lm,
    lookup_path p d = Some (VDict dm) ->
    lookup_path p l = Some (VDict lm) ->
    expected_issues (VDict dm) (VDict lm) (path_label name p) =
      flat_map (fun kv =>
                  match dict_get dm (fst kv) with
                  | None => [no_key_msg (path_label name p) (fst kv)]
                  | Some dv =>
                      if is_dict (snd kv)
                      then expected_issues dv (snd kv)
                             (sub_name (path_label name p) (fst kv))
                      else []
                  end) lm /\
    (exists pre post,
       expected_issues d l name =
       (pre ++ expected_issues (VDict dm) (VDict lm) (path_label name p) ++ post)%list) /\
    exists dm',
      lookup_path p (fst (fst (_update_config d l name iss))) = Some (VDict dm') /\
      keys dm' = keys dm /\
      forall k, In k (keys lm) -> dict_get dm k = None ->
                dict_get dm' k = None /\
                In (no_key_msg (path_label name p) k)
                   (snd (fst (_update_config d l name iss))) /\
                snd (_update_config d l name iss) = false.
Proof.
  intros Hwf. split; [now apply update_config_expected | ].
  intros p dm lm Hd Hl.
  destruct (update_config_reach p d l name (VDict dm) (VDict lm) Hwf Hd Hl)
    as (Ht & (pre & post & Hi) & Hr); [now right | ].
  pose proof (wf_lookup_path p l (VDict lm) Hwf Hl) as Hwlm.
  rewrite !update_config_expected in Hi by assumption. cbn [app] in Hi.
  split; [reflexivity | ]. split; [now exists pre, post | ].
  rewrite (update_config_issues_app l d name iss). cbn [fst snd].
  rewrite update_config_dicts in Ht, Hr. cbn [fst snd] in Ht, Hr.
  destruct (update_items_contribs lm dm (path_label name p) [] true)
    as (contribs & _ & _ & Hv).
  exists (fst (fst (update_items _update_config lm dm (path_label name p) [] true))).
  split; [exact Ht | ]. split; [apply update_items_keys_eq | ].
  intros k Hin Hk. split; [now apply update_items_get_None | ]. split.
  - apply in_or_app. right.
    rewrite (update_config_expected l Hwf d name []). cbn [app]. rewrite Hi.
    apply in_or_app. right. apply in_or_app. left.
    rewrite expected_issues_dicts. apply in_flat_map.
    unfold keys in Hin. apply in_map_iff in Hin as ([k' v'] & <- & Hin).
    exists (k', v'). split; [exact Hin | ]. cbn [fst] in *. rewrite Hk. now left.
  - destruct (snd (_update_config d l name [])); [ | reflexivity].
    rewrite Hv in Hr; [discriminate (Hr eq_refl) | ].
    left. now exists k.
Qed.

Lemma unknown_keys_reported_witness :
  snd (fst (_update_config
              (VDict [("feature", VDict [("threshold", VInt 5)])])
              (VDict [("feature", VDict [("thresholdx", VInt 9); ("other", VInt 1)])])
              "cfg" []))
  = [no_key_msg (path_label "cfg" ["feature"]) "thresholdx";
     no_key_msg (path_label "cfg" ["feature"]) "other"] /\
  snd (_update_config
         (VDict [("feature", VDict [("threshold", VInt 5)])])
         (VDict [("feature", VDict [("thresholdx", VInt 9); ("other", VInt 1)])])
         "cfg" []) = false.
Proof.
  destruct (unknown_keys_reported
              (VDict [("feature", VDict [("threshold", VInt 5)])])
              (VDict [("feature", VDict [("thresholdx", VInt 9); ("other", VInt 1)])])
              "cfg" [] eq_refl) as [Hi Hp].
  split; [exact Hi | ].
  destruct (Hp ["feature"] [("threshold", VInt 5)]
              [("thresholdx", VInt 9); ("other", VInt 1)] eq_refl eq_refl)
    as (_ & _ & dm' & _ & _ & Hk).
  apply (Hk "other"); [right; now left | reflexivity].
Defined.

(** C10, as the code has it.  Merging the same local tree a second time into
    the result of the first merge gives the same tree, the same issues and
    the same result as the first merge; the issues are none when the first
    merge was valid. *)
Theorem merge_twice_same d l name :
  wf l = true ->
  _update_config (fst (fst (_update_config d l name []))) l name [] =
    _update_config d l name [] /\
  (snd (_update_config d l name []) = true ->
   snd (fst (_update_config (fst (fst (_update_config d l name []))) l name [])) = []).
Proof.
  intros Hwf. split.
  - now apply update_config_idem.
  - intros Hv. rewrite update_config_idem by exact Hwf.
    now apply update_config_valid_no_issues.
Qed.

Lemma merge_twice_same_witness :
  _update_config
    (fst (fst (_update_config (VDict [("feature", VDict [("threshold", VInt 5)])])
                 (VDict [("feature", VDict [("threshold", VInt 9)])]) "cfg" [])))
    (VDict [("feature", VDict [("threshold", VInt 9)])]) "cfg" [] =
  _update_config (VDict [("feature", VDict [("threshold", VInt 5)])])
    (VDict [("feature", VDict [("threshold", VInt 9)])]) "cfg" [] /\
  snd (fst (_update_config
    (fst (fst (_update_config (VDict [("feature", VDict [("threshold", VInt 5)])])
                 (VDict [("feature", VDict [("threshold", VInt 9)])]) "cfg" [])))
    (VDict [("feature", VDict [("threshold", VInt 9)])]) "cfg" [])) = [].
Proof.
  destruct (merge_twice_same (VDict [("feature", VDict [("threshold", VInt 5)])])
              (VDict [("feature", VDict [("threshold", VInt 9)])]) "cfg" eq_refl)
    as [H1 H2].
  split; [exact H1 | apply H2; reflexivity].
Defined.

(** C10 fails for a local tree with a key that the default tree does not
    have: the second merge reports the key again. *)
Lemma second_merge_reports_again :
  snd (fst (_update_config
              (fst (fst (_update_config (VDict [("a", VInt 1)]) (VDict [("b", VInt 2)])
                           "cfg" [])))
              (VDict [("b", VInt 2)]) "cfg" []))
  = [no_key_msg "cfg" "b"] /\
  [no_key_msg "cfg" "b"] <> [].
Proof. split; [reflexivity | discriminate]. Qed.

(** * The load pipeline *)

Lemma read_config_document w s config :
  files w s = Some (Document config) -> config <> VNone ->
  _read_config w (VStr s) = ([], Return config).
Proof.
  intros Hf Hc. unfold _read_config. rewrite Hf. destruct config; try reflexivity.
  contradiction.
Qed.

Lemma read_config_silent w src out x :
  _read_config w src = (out, Return x) -> out = [].
Proof.
  unfold _read_config. destruct src; try (intros [= <- _]; reflexivity); try discriminate.
  destruct (files w s) as [[ | c] | ]; try discriminate.
  destruct c; simpl; try discriminate; now intros [= <- _].
Qed.

Lemma read_sources_local w self config local_config :
  files w (_default_source self) = Some (Document config) -> config <> VNone ->
  local_tree w self local_config ->
  read_sources w self = ([], Return (config, local_config)).
Proof.
  intros Hd Hc Hl. unfold read_sources, exists_, local_tree in *.
  rewrite (read_config_document w _ config Hd Hc).
  destruct (files w (_user_source self)) as [f | ] eqn:Hu.
  - destruct Hl as [-> Hn]. rewrite (read_config_document w _ local_config Hu Hn).
    reflexivity.
  - subst local_config. reflexivity.
Qed.

Lemma pbind_return_inv {A B} (m : proc A) (f : A -> proc B) out b :
  pbind m f = (out, Return b) ->
  exists o1 a o2, m = (o1, Return a) /\ f a = (o2, Return b) /\ out = (o1 ++ o2)%list.
Proof.
  destruct m as [o1 [a | e | c]]; unfold pbind; try discriminate.
  destruct (f a) as [o2 r] eqn:E. intros [= <- ->]. now exists o1, a, o2.
Qed.

Lemma read_sources_silent w self out x :
  read_sources w self = (out, Return x) -> out = [].
Proof.
  unfold read_sources. intros H.
  apply pbind_return_inv in H as (o1 & c & o & H1 & H & ->).
  apply pbind_return_inv in H as (o2 & c2 & o3 & H2 & H3 & ->).
  apply read_config_silent in H1. subst o1.
  injection H3 as <- _.
  destruct (exists_ w (_user_source self)).
  - apply read_config_silent in H2. now subst o2.
  - now injection H2 as <- _.
Qed.

(** The pipeline once the two trees are read. *)
Lemma load_config_after_read w self config local_config :
  read_sources w self = ([], Return (config, local_config)) ->
  _load_config w self =
  (let '(merged_tree, config_issues, is_valid) :=
     _update_config config local_config (_default_source self) [] in
   ((if (1 <? List.length config_issues)%nat
     then [report config_issues (_default_source self) (_user_source self)]
     else []),
    if is_valid then resolve_config w self merged_tree else Exit 0)).
Proof.
  intros Hr. unfold _load_config. rewrite Hr. simpl.
  destruct (_update_config config local_config (_default_source self) [])
    as [[merged_tree config_issues] is_valid].
  unfold check_issues.
  destruct (1 <? List.length config_issues)%nat; destruct is_valid; simpl;
    destruct (resolve_config w self merged_tree); reflexivity.
Qed.

Lemma bind_no_exit {A B} (m : outcome A) (f : A -> outcome B) :
  (forall c, m <> Exit c) -> (forall a c, f a <> Exit c) ->
  forall c, bind m f <> Exit c.
Proof.
  intros Hm Hf c. destruct m as [a | e | c0]; simpl; [apply Hf | discriminate | ].
  exfalso. now apply (Hm c0).
Qed.

Lemma getitem_no_exit x k c : getitem x k <> Exit c.
Proof. destruct x; simpl; try discriminate. destruct (dict_get items k); discriminate. Qed.

Lemma setitem_no_exit x k v c : setitem x k v <> Exit c.
Proof. destruct x; discriminate. Qed.

Lemma Path_of_no_exit x c : Path_of x <> Exit c.
Proof. destruct x; discriminate. Qed.

Lemma resolve_config_no_exit w self config c : resolve_config w self config <> Exit c.
Proof.
  unfold resolve_config.
  repeat (apply bind_no_exit;
          [intros; first [apply getitem_no_exit | apply setitem_no_exit
                         | apply Path_of_no_exit | apply set_absolute_paths_no_exit]
          | intros ]).
  discriminate.
Qed.

(** C1, as the code has it.  A run in which a source that is read loads as
    no content (the default source, or a user source that exists), or in
    which the merge returns an invalid result, ends the process with exit
    code 0.  A default source that is missing, or that the parser refuses,
    is not handled: the exception of [open], or of the parser, reaches the
    caller. *)
Theorem load_aborts_gracefully w self :
  (graceful_abort w self -> snd (_load_config w self) = Exit 0) /\
  (files w (_default_source self) = None ->
   _load_config w self = ([], Raise FileNotFoundError)) /\
  (files w (_default_source self) = Some Unparseable ->
   _load_config w self = ([], Raise YAMLError)).
Proof.
  repeat split.
  - intros [Hd | config Hd Hc Hu | config local_config Hd Hc Hl Hv].
    + unfold _load_config, read_sources, _read_config. now rewrite Hd.
    + unfold _load_config, read_sources.
      rewrite (read_config_document w _ config Hd Hc).
      unfold exists_, _read_config. now rewrite Hu.
    + rewrite (load_config_after_read w self config local_config)
        by now apply read_sources_local.
      destruct (_update_config config local_config (_default_source self) [])
        as [[merged_tree config_issues] is_valid].
      simpl in Hv. subst is_valid. reflexivity.
  - intros Hd. unfold _load_config, read_sources, _read_config. now rewrite Hd.
  - intros Hd. unfold _load_config, read_sources, _read_config. now rewrite Hd.
Qed.

Lemma load_aborts_gracefully_witness :
  snd (_load_config
         (example_world (Some (Document (VDict [("feature", VDict [("thresholdx", VInt 9)])])))
                        (Some (Document example_default)))
         example_config) = Exit 0.
Proof.
  apply (proj1 (load_aborts_gracefully _ example_config)).
  apply (merge_invalid _ _ example_default
           (VDict [("feature", VDict [("thresholdx", VInt 9)])])).
  - reflexivity.
  - discriminate.
  - split; [reflexivity | discriminate].
  - reflexivity.
Defined.

(** C1 fails when the default source does not exist: the run ends with the
    exception [FileNotFoundError], not with exit code 0. *)
Lemma missing_default_raises :
  _load_config (example_world None None) example_config = ([], Raise FileNotFoundError) /\
  snd (_load_config (example_world None None) example_config) <> Exit 0.
Proof. split; [reflexivity | discriminate]. Qed.

(** C6.  Once the two trees are read, [_load_config] prints the report that
    names the two sources exactly when the merge collected more than one
    issue, and nothing else; it ends the process, with code 0, exactly when
    the merge returned an invalid result, whatever the number of issues; with
    a valid result and no issue it prints nothing and goes on to the
    resolution of the paths. *)
Theorem report_and_exit w self config local_config :
  snd (read_sources w self) = Return (config, local_config) ->
  let config_issues :=
    snd (fst (_update_config config local_config (_default_source self) [])) in
  let is_valid := snd (_update_config config local_config (_default_source self) []) in
  fst (_load_config w self) =
    (if (1 <? List.length config_issues)%nat
     then [report config_issues (_default_source self) (_user_source self)]
     else []) /\
  (snd (_load_config w self) = Exit 0 <-> is_valid = false) /\
  (forall code, snd (_load_config w self) = Exit code -> is_valid = false) /\
  (is_valid = true -> config_issues = [] ->
   _load_config w self =
   ([], resolve_config w self
          (fst (fst (_update_config config local_config (_default_source self) []))))).
Proof.
  intros Hr config_issues is_valid. subst config_issues is_valid.
  destruct (read_sources w self) as [out r] eqn:E. simpl in Hr. subst r.
  pose proof (read_sources_silent _ _ _ _ E). subst out.
  rewrite (load_config_after_read w self config local_config E).
  destruct (_update_config config local_config (_default_source self) [])
    as [[merged_tree config_issues] is_valid].
  cbn [fst snd]. repeat split.
  - destruct is_valid; [ | reflexivity].
    intros H. now apply resolve_config_no_exit in H.
  - now intros ->.
  - intros code. destruct is_valid; [ | reflexivity].
    intros H. now apply resolve_config_no_exit in H.
  - intros -> ->. reflexivity.
Qed.

Lemma report_and_exit_witness :
  fst (_load_config
         (example_world (Some (Document (VDict [("feature", VDict [("a", VInt 9)]);
                                                ("other", VInt 1)])))
                        (Some (Document example_default)))
         example_config) <> [] /\
  snd (_load_config
         (example_world (Some (Document (VDict [("feature", VDict [("a", VInt 9)]);
                                                ("other", VInt 1)])))
                        (Some (Document example_default)))
         example_config) = Exit 0.
Proof.
  destruct (report_and_exit
              (example_world (Some (Document (VDict [("feature", VDict [("a", VInt 9)]);
                                                     ("other", VInt 1)])))
                             (Some (Document example_default)))
              example_config example_default
              (VDict [("feature", VDict [("a", VInt 9)]); ("other", VInt 1)]) eq_refl)
    as (Hout & Hexit & _).
  split.
  - rewrite Hout. discriminate.
  - apply Hexit. reflexivity.
Defined.

(** C8, as the code has it.  When the user source does not exist, the local
    tree is the empty mapping, and nothing is printed while the sources are
    read.  When the document of the default source is a mapping, the merge
    collects no issue, returns a valid result and leaves the default tree as
    it is, and the pipeline goes on, without a word, to the resolution of
    its paths.  When it is a sequence or a scalar, the empty mapping is of
    another kind: the merge records the one "has different types" issue and
    returns an invalid result, and the run ends with [exit(0)], without a
    report.  When the default source is empty, the run ends with [exit(0)]
    before any merge. *)
Theorem missing_user_source w self config :
  files w (_user_source self) = None ->
  files w (_default_source self) = Some (Document config) ->
  (config <> VNone -> read_sources w self = ([], Return (config, VDict []))) /\
  (is_dict config = true ->
   _update_config config (VDict []) (_default_source self) [] = (config, [], true) /\
   _load_config w self = ([], resolve_config w self config)) /\
  (config <> VNone -> is_dict config = false ->
   _update_config config (VDict []) (_default_source self) []
   = (config, [different_types_msg (_default_source self) config (VDict [])], false) /\
   _load_config w self = ([], Exit 0)) /\
  (config = VNone ->
   _load_config w self = ([_default_source self ++ " is empty. Fill it, please."], Exit 0)).
Proof.
  intros Hu Hd.
  assert (config <> VNone -> read_sources w self = ([], Return (config, VDict []))) as Hr.
  { intros Hn. apply read_sources_local; [exact Hd | exact Hn | ].
    unfold local_tree. now rewrite Hu. }
  split; [exact Hr | ]. split; [ | split].
  - intros Hk. destruct config; try discriminate.
    rewrite (load_config_after_read w self _ _ (Hr ltac:(discriminate))).
    split; reflexivity.
  - intros Hn Hk. rewrite (load_config_after_read w self _ _ (Hr Hn)).
    destruct config; try discriminate; try contradiction; split; reflexivity.
  - intros ->. unfold _load_config, read_sources, _read_config. rewrite Hd. reflexivity.
Qed.

Lemma missing_user_source_witness :
  read_sources (example_world None (Some (Document example_default))) example_config
  = ([], Return (example_default, VDict [])) /\
  _update_config example_default (VDict []) (_default_source example_config) []
  = (example_default, [], true) /\
  _load_config (example_world None (Some (Document example_default))) example_config
  = ([], resolve_config (example_world None (Some (Document example_default)))
           example_config example_default).
Proof.
  destruct (missing_user_source (example_world None (Some (Document example_default)))
              example_config example_default eq_refl eq_refl)
    as (Hr & Hm & _).
  split; [apply Hr; discriminate | ]. exact (Hm eq_refl).
Defined.

(** C8 fails when the document of the default source is not a mapping, here
    a sequence: with no user source, the merge collects one issue and
    returns an invalid result, and the run ends with [exit(0)]. *)
Lemma missing_user_source_invalid :
  let w := example_world None (Some (Document (VList [VStr "a"]))) in
  files w (_user_source example_config) = None /\
  snd (fst (_update_config (VList [VStr "a"]) (VDict [])
              (_default_source example_config) []))
  = [different_types_msg (_default_source example_config) (VList [VStr "a"]) (VDict [])] /\
  snd (_update_config (VList [VStr "a"]) (VDict []) (_default_source example_config) [])
  = false /\
  _load_config w example_config = ([], Exit 0).
Proof. repeat split. Qed.

(** * The resolution of paths *)

Lemma Forall2_dict_get f d d' :
  Forall2 (fun kv kv' => fst kv' = fst kv /\ f (fst kv) (snd kv) = Return (snd kv')) d d' ->
  forall k v, dict_get d k = Some v ->
              exists v', dict_get d' k = Some v' /\ f k v = Return v'.
Proof.
  induction 1 as [ | [k0 v0] [k0' v0'] d d' [Hk Hv] _ IH]; intros k v; [discriminate | ].
  simpl in Hk, Hv. subst k0'. simpl.
  destruct (String.eqb k0 k) eqn:E.
  - apply String.eqb_eq in E. subst k0. intros [= <-]. now exists v0'.
  - apply IH.
Qed.

(** [strip] removes white space that is not ASCII as well: a key
    ["resources"] between a no-break space and an ideographic space is a
    resources key, and a key with other bytes around it is not. *)
Lemma strip_spaced_key :
  strip example_spaced_key = "resources" /\
  strip (String (ascii_of_nat 194) (String (ascii_of_nat 161) "resources")) <> "resources".
Proof. split; [reflexivity | discriminate]. Qed.

Lemma set_absolute_paths_spaced_key :
  _set_absolute_paths (Path "/home/u") (Path "/home/u/res")
    (VDict [(example_spaced_key, VDict [("icon", VStr "logo.png")])])
  = Return (VDict [(example_spaced_key, VDict [("icon", VStr "/home/u/res/logo.png")])]).
Proof. reflexivity. Qed.

(** C7.  On a mapping, [_set_absolute_paths] applies the rule of the pass to
    each key/value pair, in order: its result is the mapping of the results
    of the rule, and its failure is the first failure of the rule.  So the
    result has the keys of the mapping, and under each key the value that
    the rule gives: the entries of a mapping under ["resources"] joined to
    the resources directory, any other mapping resolved in turn, a leaf that
    is not [None] joined to the working directory under a key with ["path"],
    else to the resources directory under a key with ["location"], and
    anything else (a sequence included) as it was. *)
Theorem set_absolute_paths_rule wd rd d :
  wf (VDict d) = true ->
  _set_absolute_paths wd rd (VDict d) =
    (d' <- map_items (resolved_pair wd rd) d ;; Return (VDict d')) /\
  (forall r, _set_absolute_paths wd rd (VDict d) = Return r ->
             exists d', r = VDict d' /\ keys d' = keys d /\
                        forall k v, dict_get d k = Some v ->
                                    exists v', dict_get d' k = Some v' /\
                                               resolved_pair wd rd k v = Return v').
Proof.
  intros Hwf. split; [now apply set_absolute_paths_map | ].
  intros r. rewrite set_absolute_paths_map by exact Hwf.
  destruct (map_items (resolved_pair wd rd) d) as [d' | | ] eqn:Hm; simpl; try discriminate.
  intros [= <-]. exists d'. repeat split.
  - now apply (map_items_keys _ _ _ Hm).
  - apply (Forall2_dict_get (resolved_pair wd rd)). now apply map_items_Forall2.
Qed.

Lemma set_absolute_paths_rule_witness :
  _set_absolute_paths (Path "/home/u") (Path "/home/u/res") (VDict example_paths_tree)
  = Return (VDict [("model", VDict [("weights_path", VStr "/home/u/w.bin")]);
                   (" resources ", VDict [("icon", VStr "/home/u/res/logo.png")]);
                   ("data_location", VStr "/home/u/res/d.csv");
                   ("names", VList [VStr "path"]);
                   ("log_path", VNone)]).
Proof.
  rewrite (proj1 (set_absolute_paths_rule (Path "/home/u") (Path "/home/u/res")
                    example_paths_tree eq_refl)).
  reflexivity.
Defined.

(** C3, as the code has it.  With absolute base directories, a second pass
    over a tree that was resolved once returns the same tree: each value
    that the first pass made is an absolute path, and joining a base
    directory to an absolute path gives that path, so that the string
    produced the second time is equal to the value. *)
Theorem resolve_twice_same wd rd t t1 :
  path_ok wd = true -> is_absolute wd = true ->
  path_ok rd = true -> is_absolute rd = true ->
  wf t = true ->
  _set_absolute_paths wd rd t = Return t1 ->
  _set_absolute_paths wd rd t1 = Return t1 /\
  (forall s, path_str (joinpath wd (path_str (joinpath wd s))) = path_str (joinpath wd s)) /\
  (forall s, path_str (joinpath rd (path_str (joinpath rd s))) = path_str (joinpath rd s)).
Proof.
  intros Hwo Hwa Hro Hra Hwf H. repeat split.
  - now apply (set_absolute_paths_idem wd rd Hwo Hwa Hro Hra t Hwf t1 H).
  - intros s. now rewrite joinpath_again.
  - intros s. now rewrite joinpath_again.
Qed.

Lemma resolve_twice_same_witness :
  _set_absolute_paths (Path "/home/u") (Path "/home/u/res")
    (VDict [("model", VDict [("weights_path", VStr "/home/u/w.bin")]);
            ("resources", VDict [("icon", VStr "/home/u/res/logo.png")])])
  = Return (VDict [("model", VDict [("weights_path", VStr "/home/u/w.bin")]);
                   ("resources", VDict [("icon", VStr "/home/u/res/logo.png")])]).
Proof.
  apply (resolve_twice_same (Path "/home/u") (Path "/home/u/res")
           (VDict [("model", VDict [("weights_path", VStr "w.bin")]);
                   ("resources", VDict [("icon", VStr "logo.png")])])
           (VDict [("model", VDict [("weights_path", VStr "/home/u/w.bin")]);
                   ("resources", VDict [("icon", VStr "/home/u/res/logo.png")])]));
    reflexivity.
Defined.

(** C3 fails on the tree of a working directory [/home/u]: the value that
    the first pass made, ["/home/u/w.bin"], is what the working directory
    joined to it gives, and the second pass returns the tree of the
    first. *)
Lemma resolve_twice_example :
  _set_absolute_paths (Path "/home/u") (Path "/home/u/res")
    (VDict [("model", VDict [("weights_path", VStr "w.bin")])])
  = Return (VDict [("model", VDict [("weights_path", VStr "/home/u/w.bin")])]) /\
  path_str (joinpath (Path "/home/u") "/home/u/w.bin") = "/home/u/w.bin" /\
  _set_absolute_paths (Path "/home/u") (Path "/home/u/res")
    (VDict [("model", VDict [("weights_path", VStr "/home/u/w.bin")])])
  = Return (VDict [("model", VDict [("weights_path", VStr "/home/u/w.bin")])]).
Proof. repeat split. Qed.

(** * The heap *)






(** * Unique keys are kept *)

Lemma wf_dict_set d k x y :
  wf (VDict d) = true -> wf x = true -> dict_get d k = Some y ->
  wf (VDict (dict_set d k x)) = true.
Proof.
  intros Hd Hx Hk.
  change (nodupb (keys (dict_set d k x)) &&
          forallb (fun kv => wf (snd kv)) (dict_set d k x) = true).
  rewrite (keys_set_present d k x y Hk).
  apply wf_dict_inv in Hd as [Hnd Hall]. rewrite Hnd. simpl.
  clear Hnd Hk. induction d as [ | [k0 v0] d IH]; simpl.
  - now rewrite Hx.
  - inversion Hall as [ | ? ? H0 Hall']; subst. cbn [snd] in H0.
    destruct (String.eqb k0 k); simpl.
    + rewrite Hx. simpl. apply forallb_forall. intros kv Hin.
      rewrite Forall_forall in Hall'. now apply Hall'.
    + rewrite H0. simpl. now apply IH.
Qed.





(** * The tree that a load returns *)

Lemma bind_return_inv {A B} (m : outcome A) (f : A -> outcome B) b :
  bind m f = Return b -> exists a, m = Return a /\ f a = Return b.
Proof. destruct m as [a | | ]; simpl; try discriminate. intros H. now exists a. Qed.

Lemma getitem_inv x k v :
  getitem x k = Return v -> exists d, x = VDict d /\ dict_get d k = Some v.
Proof.
  destruct x; simpl; try discriminate.
  destruct (dict_get items k) eqn:E; try discriminate. intros [= <-]. now exists items.
Qed.




(** * A store that was loaded: the attributes *)

Lemma Path_of_inv x p : Path_of x = Return p -> exists s, x = VStr s /\ p = Path s.
Proof. destruct x; simpl; try discriminate. intros [= <-]. now exists s. Qed.

(** What [resolve_config] has done when it returns. *)
Lemma resolve_config_inv w self m self' config :
  wf m = true ->
  resolve_config w self m = Return (self', config) ->
  exists cm g0 wds rds d,
    m = VDict cm /\
    dict_get cm "general" = Some (VDict g0) /\
    dict_get g0 "working_dir" = Some (VStr wds) /\
    dict_get g0 "resources_dir" = Some (VStr rds) /\
    wf (VDict (dict_set cm "general"
                 (VDict (dict_set g0 "working_dir"
                           (VStr (path_str (absolute (cwd w) (Path wds)))))))) = true /\
    _set_absolute_paths (absolute (cwd w) (Path wds)) (absolute (cwd w) (Path rds))
      (VDict (dict_set cm "general"
                (VDict (dict_set g0 "working_dir"
                          (VStr (path_str (absolute (cwd w) (Path wds))))))))
    = Return (VDict d) /\
    config = VDict d /\
    self' = {| _keys := _keys self;
               _user_source := _user_source self;
               _default_source := _default_source self;
               _working_dir := Some (absolute (cwd w) (Path wds));
               _resources_dir := Some (absolute (cwd w) (Path rds));
               sections := sections self |}.
Proof.
  intros Hwf H. unfold resolve_config in H.
  apply bind_return_inv in H as (general & Hg & H).
  apply getitem_inv in Hg as (cm & -> & Hg).
  apply bind_return_inv in H as (x & Hx & H).
  apply getitem_inv in Hx as (g0 & -> & Hx).
  apply bind_return_inv in H as (p & Hp & H).
  apply Path_of_inv in Hp as (wds & -> & ->).
  apply bind_return_inv in H as (general1 & Hg1 & H).
  simpl in Hg1. rewrite Hg in Hg1. injection Hg1 as <-.
  apply bind_return_inv in H as (x1 & Hx1 & H).
  apply getitem_inv in Hx1 as (g0' & [= <-] & Hx1).
  apply bind_return_inv in H as (p1 & Hp1 & H).
  apply Path_of_inv in Hp1 as (rds & -> & ->).
  apply bind_return_inv in H as (general2 & Hg2 & H).
  simpl in Hg2. rewrite Hg in Hg2. injection Hg2 as <-.
  apply bind_return_inv in H as (general3 & Hg3 & H).
  simpl in Hg3. injection Hg3 as <-.
  apply bind_return_inv in H as (config1 & Hc1 & H).
  simpl in Hc1. injection Hc1 as <-.
  apply bind_return_inv in H as (config2 & Hc2 & H).
  injection H as <- <-.
  assert (wf (VDict (dict_set cm "general"
                 (VDict (dict_set g0 "working_dir"
                           (VStr (path_str (absolute (cwd w) (Path wds)))))))) = true)
    as Hwf1.
  { apply (wf_dict_set cm "general" _ (VDict g0) Hwf); [ | exact Hg].
    apply (wf_dict_set g0 "working_dir" _ (VStr wds)); [ | reflexivity | exact Hx].
    now apply (wf_dict_get cm "general"). }
  pose proof (set_absolute_paths_returns_dict _ _ _ _ Hc2) as Hd.
  destruct config2 as [ | | | | | | d]; try discriminate.
  exists cm, g0, wds, rds, d. repeat split; assumption.
Qed.



















(** * A store that was loaded: [get_part] *)








(** * The store *)




(** * More on the merge *)

(** X1.  The merge keeps the kind of the default tree and, when it is a
    mapping, its keys and their order: no key is added, removed or moved. *)
Theorem merge_keeps_keys d l name iss :
  type_of (fst (fst (_update_config d l name iss))) = type_of d /\
  (forall dm, d = VDict dm ->
              exists dm', fst (fst (_update_config d l name iss)) = VDict dm' /\
                          keys dm' = keys dm).
Proof.
  split; [apply update_config_type | ].
  intros dm ->. destruct (is_dict l) eqn:Hl.
  - destruct l as [ | | | | | | lm]; try discriminate.
    rewrite update_config_dicts. cbn [fst]. eexists. split; [reflexivity | ].
    apply update_items_keys_eq.
  - exists dm. split; [ | reflexivity].
    rewrite update_config_mismatch; [reflexivity | ].
    destruct l; simpl in *; congruence.
Qed.

Lemma update_items_no_issues_valid items :
  Forall (fun kv => forall d name,
            snd (fst (_update_config d (snd kv) name [])) = [] ->
            snd (_update_config d (snd kv) name []) = true) items ->
  forall d name,
    snd (fst (update_items _update_config items d name [] true)) = [] ->
    snd (update_items _update_config items d name [] true) = true.
Proof.
  induction 1 as [ | [k v] items Hv _ IH]; intros d name; [reflexivity | ].
  rewrite update_items_cons, update_items_from_nil. cbn [fst snd].
  intros H. apply app_eq_nil in H as [He Hr]. simpl in He.
  rewrite (IH _ _ Hr), andb_true_r. simpl.
  unfold entry_issues in He. unfold entry_valid.
  destruct (dict_get d k) as [cfg1 | ]; [ | discriminate].
  destruct (is_dict v); [ | reflexivity]. now apply Hv.
Qed.

Lemma update_config_no_issues_valid l : forall d name,
  snd (fst (_update_config d l name [])) = [] ->
  snd (_update_config d l name []) = true.
Proof.
  induction l as [ | b | z | f | s | l _ | items IH] using value_tree_ind; intros d name;
    try (destruct d; simpl; intros H; (reflexivity || discriminate)).
  destruct d as [ | b | z | f | s | l | dm]; try (simpl; discriminate).
  rewrite update_config_dicts. cbn [fst snd]. now apply update_items_no_issues_valid.
Qed.

(** X2.  The merge returns [True] exactly when it has appended no issue to
    the list that it was given. *)
Theorem merge_valid_iff_no_issues d l name iss :
  snd (_update_config d l name iss) = true <->
  snd (fst (_update_config d l name iss)) = iss.
Proof.
  rewrite (update_config_issues_app l d name iss). cbn [fst snd]. split.
  - intros H. rewrite (update_config_valid_no_issues l d name H). apply app_nil_r.
  - intros H. apply update_config_no_issues_valid.
    apply (app_inv_head iss). now rewrite app_nil_r.
Qed.

Lemma forallb_ext_in {A} (f g : A -> bool) l :
  (forall x, In x l -> f x = g x) -> forallb f l = forallb g l.
Proof.
  induction l as [ | x l IH]; intros H; [reflexivity | ].
  simpl. rewrite (H x) by now left. f_equal. apply IH. intros y Hy. apply H. now right.
Qed.

(** The test of an entry of the local mapping against a default mapping. *)
Lemma compatible_dicts dm lm :
  compatible (VDict dm) (VDict lm) =
  forallb (fun kv =>
             match dict_get dm (fst kv) with
             | None => false
             | Some dv => if is_dict (snd kv) then compatible dv (snd kv) else true
             end) lm.
Proof. reflexivity. Qed.

Lemma update_items_valid_compatible items :
  Forall (fun kv => forall d name,
            snd (_update_config d (snd kv) name []) = compatible d (snd kv)) items ->
  nodupb (keys items) = true ->
  forall d name,
    snd (update_items _update_config items d name [] true) =
    compatible (VDict d) (VDict items).
Proof.
  induction 1 as [ | [k v] items Hv _ IH]; intros Hnd d name; [reflexivity | ].
  apply nodupb_cons in Hnd as [Hk Hnd].
  rewrite update_items_cons, update_items_from_nil. cbn [fst snd].
  rewrite (IH Hnd), !compatible_dicts, andb_true_r. cbn [forallb fst snd].
  rewrite andb_comm. f_equal.
  - unfold entry_valid. destruct (dict_get d k) as [cfg1 | ]; [ | reflexivity].
    destruct (is_dict v); [apply Hv | reflexivity].
  - apply forallb_ext_in. intros [k' v'] Hin. cbn [fst snd].
    rewrite entry_tree_get_other; [reflexivity | ].
    intros ->. apply Hk. unfold keys. now apply (in_map fst _ (k', v')).
Qed.

Lemma update_config_valid_compatible l :
  wf l = true ->
  forall d name iss, snd (_update_config d l name iss) = compatible d l.
Proof.
  intros Hwf d name iss. rewrite (update_config_issues_app l d name iss). cbn [snd].
  revert Hwf d name. clear iss.
  induction l as [ | b | z | f | s | l _ | items IH] using value_tree_ind;
    intros Hwf d name;
    try (destruct d; reflexivity).
  destruct d as [ | b | z | f | s | l | dm]; try reflexivity.
  rewrite update_config_dicts. cbn [snd].
  apply wf_dict_inv in Hwf as [Hnd Hwf].
  apply update_items_valid_compatible; [ | exact Hnd].
  rewrite Forall_forall in IH, Hwf |- *. intros kv Hin d0 n0.
  now apply IH, Hwf.
Qed.

(** X3.  The flag that the merge returns is decided by the two trees as
    they are given: it is [True] exactly when their kinds agree and, for
    mappings, each local key is a default key under which a local mapping is
    accepted in turn; what the merge assigns on the way does not matter. *)
Theorem merge_valid_iff_compatible d l name iss :
  wf l = true ->
  snd (_update_config d l name iss) = compatible d l.
Proof. intros Hwf. now apply update_config_valid_compatible. Qed.

Lemma merge_valid_iff_compatible_witness :
  snd (_update_config example_default
         (VDict [("feature", VDict [("threshold", VInt 9)]); ("extra", VStr "x")])
         "cfg" []) =
  compatible example_default
    (VDict [("feature", VDict [("threshold", VInt 9)]); ("extra", VStr "x")]) /\
  compatible example_default
    (VDict [("feature", VDict [("threshold", VInt 9)]); ("extra", VStr "x")]) = true.
Proof.
  split; [ | reflexivity].
  apply (merge_valid_iff_compatible example_default
           (VDict [("feature", VDict [("threshold", VInt 9)]); ("extra", VStr "x")])
           "cfg" []).
  reflexivity.
Defined.

Lemma dict_get_In_pair d k v : dict_get d k = Some v -> In (k, v) d.
Proof.
  induction d as [ | [k0 v0] d IH]; simpl; [discriminate | ].
  destruct (String.eqb k0 k) eqn:E.
  - apply String.eqb_eq in E. subst k0. intros [= <-]. now left.
  - intros H. right. now apply IH.
Qed.

Lemma compatible_paths p : forall d l lv,
  compatible d l = true ->
  lookup_path p l = Some lv ->
  exists dv, lookup_path p d = Some dv /\ (is_dict lv = true -> is_dict dv = true).
Proof.
  induction p as [ | k p IH]; intros d l lv Hc Hl.
  - injection Hl as <-. exists d. split; [reflexivity | ].
    destruct l; try discriminate. destruct d; try discriminate. reflexivity.
  - apply lookup_path_cons_inv in Hl as (lm & lw & -> & Hlk & Hlp).
    destruct d as [ | | | | | | dm]; try discriminate.
    rewrite compatible_dicts in Hc. rewrite forallb_forall in Hc.
    specialize (Hc (k, lw) (dict_get_In_pair _ _ _ Hlk)). cbn [fst snd] in Hc.
    destruct (dict_get dm k) as [dw | ] eqn:Hdk; [ | discriminate].
    destruct p as [ | k' p'].
    + injection Hlp as <-. exists dw. simpl. rewrite Hdk. split; [reflexivity | ].
      intros Hd. rewrite Hd in Hc. destruct lw; try discriminate.
      destruct dw; try discriminate. reflexivity.
    + assert (is_dict lw = true) as Hd.
      { apply lookup_path_cons_inv in Hlp as (? & ? & -> & _). reflexivity. }
      rewrite Hd in Hc. destruct (IH dw lw lv Hc Hlp) as (dv & Hdv & Hk).
      exists dv. split; [ | exact Hk]. simpl lookup_path at 1. rewrite Hdk. exact Hdv.
Qed.

(** X4.  When the merge returns [True], the default tree has every key path
    of the local tree, and a mapping wherever the local tree has one: a
    valid local tree sets no key that the default tree does not define. *)
Theorem valid_merge_covers_local d l name iss p lv :
  wf l = true ->
  snd (_update_config d l name iss) = true ->
  lookup_path p l = Some lv ->
  exists dv, lookup_path p d = Some dv /\ (is_dict lv = true -> is_dict dv = true).
Proof.
  intros Hwf Hv Hl. rewrite update_config_valid_compatible in Hv by exact Hwf.
  now apply (compatible_paths p d l lv).
Qed.

Lemma valid_merge_covers_local_witness :
  exists dv, lookup_path ["feature"; "threshold"] example_default = Some dv /\
             (is_dict (VInt 9) = true -> is_dict dv = true).
Proof.
  apply (valid_merge_covers_local example_default
           (VDict [("feature", VDict [("threshold", VInt 9)])]) "cfg" []
           ["feature"; "threshold"] (VInt 9)); reflexivity.
Defined.

Lemma update_items_self items :
  Forall (fun kv => wf (snd kv) = true ->
            forall name, _update_config (snd kv) (snd kv) name [] = (snd kv, [], true)) items ->
  Forall (fun kv => wf (snd kv) = true) items ->
  forall d name,
    (forall k v, In (k, v) items -> dict_get d k = Some v) ->
    update_items _update_config items d name [] true = (d, [], true).
Proof.
  induction 1 as [ | [k v] items Hv _ IH]; intros Hwf d name Hd; [reflexivity | ].
  inversion Hwf as [ | ? ? Hwv Hwf']; subst. cbn [snd] in Hv, Hwv.
  rewrite update_items_cons.
  pose proof (Hd k v (or_introl eq_refl)) as Hk.
  unfold entry_tree, entry_issues, entry_valid, merged_entry. rewrite Hk.
  assert ((if is_dict v then fst (fst (_update_config v v (sub_name name k) [])) else v) = v
          /\ (if is_dict v then snd (fst (_update_config v v (sub_name name k) [])) else [])
             = []
          /\ (if is_dict v then snd (_update_config v v (sub_name name k) []) else true)
             = true) as (H1 & H2 & H3).
  { destruct (is_dict v); [ | now repeat split]. now rewrite (Hv Hwv). }
  rewrite H1, H2, H3, (dict_set_same d k v Hk). simpl.
  apply IH; [exact Hwf' | ]. intros k0 v0 Hin. apply Hd. now right.
Qed.

Lemma In_dict_get d k v :
  nodupb (keys d) = true -> In (k, v) d -> dict_get d k = Some v.
Proof.
  induction d as [ | [k0 v0] d IH]; intros Hnd Hin; [contradiction | ].
  apply nodupb_cons in Hnd as [Hk Hnd]. simpl. destruct Hin as [[= -> ->] | Hin].
  - now rewrite String.eqb_refl.
  - destruct (String.eqb k0 k) eqn:E; [ | now apply IH].
    apply String.eqb_eq in E. subst k0. exfalso. apply Hk.
    unfold keys. now apply (in_map fst _ (k, v)).
Qed.

(** X5.  Merging a tree into itself changes nothing, records no issue and
    is valid: a local source that repeats the default source is accepted. *)
Theorem merge_self d name :
  wf d = true ->
  _update_config d d name [] = (d, [], true).
Proof.
  revert name.
  induction d as [ | b | z | f | s | l _ | items IH] using value_tree_ind;
    intros name Hwf; try reflexivity.
  rewrite update_config_dicts. apply wf_dict_inv in Hwf as [Hnd Hwf].
  rewrite (update_items_self items); [reflexivity | | exact Hwf | ].
  - rewrite Forall_forall in IH |- *. intros kv Hin Hw n. now apply IH.
  - intros k v Hin. now apply In_dict_get.
Qed.

Lemma merge_self_witness :
  _update_config example_default example_default "cfg" [] = (example_default, [], true).
Proof. apply (merge_self example_default "cfg"). reflexivity. Defined.

(** * More on the resolution of paths *)

(** A map whose rule returns on the entries that pass a test, and raises
    [TypeError] on the others. *)
Lemma map_items_decided f (g : string * value -> bool) d :
  (forall k v, In (k, v) d ->
               (g (k, v) = true -> exists v', f k v = Return v') /\
               (g (k, v) = false -> f k v = Raise TypeError)) ->
  (forallb g d = true -> exists d', map_items f d = Return d') /\
  (forallb g d = false -> map_items f d = Raise TypeError).
Proof.
  induction d as [ | [k v] d IH]; intros H.
  - split; [now exists [] | discriminate].
  - destruct (H k v (or_introl eq_refl)) as [Ht Hf].
    destruct IH as [IHt IHf]; [intros k0 v0 Hin; apply H; now right | ].
    cbn [forallb map_items]. destruct (g (k, v)).
    + destruct (Ht eq_refl) as (v' & ->). simpl. split.
      * intros Hd. destruct (IHt Hd) as (d' & ->). simpl. now eexists.
      * intros Hd. now rewrite (IHf Hd).
    + rewrite (Hf eq_refl). split; [discriminate | reflexivity].
Qed.

Lemma joinpath_of_decided b x :
  (is_str x = true -> exists p, joinpath_of b x = Return p) /\
  (is_str x = false -> joinpath_of b x = Raise TypeError).
Proof. destruct x; simpl; split; try discriminate; try reflexivity. now eexists. Qed.

Lemma resources_decided rd sub :
  (forallb (fun sv => is_str (snd sv)) sub = true ->
   exists sub', map_items (resource_entry rd) sub = Return sub') /\
  (forallb (fun sv => is_str (snd sv)) sub = false ->
   map_items (resource_entry rd) sub = Raise TypeError).
Proof.
  apply map_items_decided. intros k v _. cbn [snd]. unfold resource_entry.
  destruct (joinpath_of_decided rd v) as [Ht Hf]. split.
  - intros H. destruct (Ht H) as (p & ->). simpl. now eexists.
  - intros H. now rewrite (Hf H).
Qed.

Lemma set_absolute_paths_decided wd rd v :
  wf v = true -> is_dict v = true ->
  (joined_values is_str v = true -> exists r, _set_absolute_paths wd rd v = Return r) /\
  (joined_values is_str v = false -> _set_absolute_paths wd rd v = Raise TypeError).
Proof.
  induction v as [ | b | z | f | s | l _ | d IH] using value_tree_ind;
    intros Hwf Hd; try discriminate.
  rewrite set_absolute_paths_map by exact Hwf.
  apply wf_dict_inv in Hwf as [_ Hwf].
  assert (forall k v, In (k, v) d ->
            let g := fun kv : string * value =>
              match snd kv with
              | VDict sub =>
                  if String.eqb (strip (fst kv)) "resources"
                  then forallb (fun sv => is_str (snd sv)) sub
                  else joined_values is_str (snd kv)
              | VNone => true
              | x => if contains "path" (fst kv) || contains "location" (fst kv)
                     then is_str x else true
              end in
            (g (k, v) = true -> exists v', resolved_pair wd rd k v = Return v') /\
            (g (k, v) = false -> resolved_pair wd rd k v = Raise TypeError)) as Hpair.
  { intros k v Hin g. subst g. cbn [fst snd].
    rewrite Forall_forall in IH, Hwf.
    specialize (IH _ Hin). specialize (Hwf _ Hin). cbn [snd] in IH, Hwf.
    destruct v as [ | b | z | f | s | l | sub]; unfold resolved_pair;
      try (destruct (contains "path" k); cbn [orb];
           [ | destruct (contains "location" k)];
           split; intros H; try discriminate; try reflexivity; now eexists).
    destruct (String.eqb (strip k) "resources").
    - destruct (resources_decided rd sub) as [Ht Hf]. split.
      + intros H. destruct (Ht H) as (sub' & ->). simpl. now eexists.
      + intros H. now rewrite (Hf H).
    - now apply IH. }
  destruct (map_items_decided (resolved_pair wd rd) _ d Hpair) as [Ht Hf].
  split.
  - intros H. destruct (Ht H) as (d' & ->). simpl. now eexists.
  - intros H. now rewrite (Hf H).
Qed.

(** X6.  On a mapping, [_set_absolute_paths] returns exactly when each value
    that it has to join to a base directory is a string (each entry of a
    mapping under ["resources"], [None] included, and each leaf other than
    [None] under a key with ["path"] or ["location"]); if one is not, the
    call raises [TypeError], and never anything else. *)
Theorem set_absolute_paths_returns_iff wd rd d :
  wf (VDict d) = true ->
  (joined_values is_str (VDict d) = true ->
   exists d', _set_absolute_paths wd rd (VDict d) = Return (VDict d')) /\
  (joined_values is_str (VDict d) = false ->
   _set_absolute_paths wd rd (VDict d) = Raise TypeError).
Proof.
  intros Hwf. destruct (set_absolute_paths_decided wd rd (VDict d) Hwf eq_refl) as [Ht Hf].
  split; [ | exact Hf].
  intros H. destruct (Ht H) as (r & Hr).
  pose proof (set_absolute_paths_returns_dict wd rd _ _ Hr) as Hd.
  destruct r; try discriminate. eexists. exact Hr.
Qed.

Lemma set_absolute_paths_returns_iff_witness :
  (exists d', _set_absolute_paths (Path "/home/u") (Path "/home/u/res")
                (VDict example_paths_tree) = Return (VDict d')) /\
  _set_absolute_paths (Path "/home/u") (Path "/home/u/res")
    (VDict [("max_path_length", VInt 255)]) = Raise TypeError /\
  _set_absolute_paths (Path "/home/u") (Path "/home/u/res")
    (VDict [("resources", VDict [("icon", VNone)])]) = Raise TypeError.
Proof.
  split; [ | split].
  - apply (proj1 (set_absolute_paths_returns_iff (Path "/home/u") (Path "/home/u/res")
                    example_paths_tree eq_refl)). reflexivity.
  - apply (proj2 (set_absolute_paths_returns_iff (Path "/home/u") (Path "/home/u/res")
                    [("max_path_length", VInt 255)] eq_refl)). reflexivity.
  - apply (proj2 (set_absolute_paths_returns_iff (Path "/home/u") (Path "/home/u/res")
                    [("resources", VDict [("icon", VNone)])] eq_refl)). reflexivity.
Defined.

Lemma map_items_forallb f (g : string * value -> bool) d : forall d',
  map_items f d = Return d' ->
  (forall k v v', In (k, v) d -> f k v = Return v' -> g (k, v') = true) ->
  forallb g d' = true.
Proof.
  induction d as [ | [k v] d IH]; simpl; intros d' H Hg.
  - now injection H as <-.
  - destruct (f k v) as [v' | | ] eqn:E; simpl in H; try discriminate.
    destruct (map_items f d) as [r | | ] eqn:Er; simpl in H; try discriminate.
    injection H as <-. simpl. rewrite (Hg k v v') by (auto; now left). simpl.
    apply IH; [reflexivity | ]. intros k0 v0 v0' Hin. apply Hg. now right.
Qed.

Lemma joined_is_absolute b s :
  path_ok b = true -> is_absolute b = true ->
  is_absolute (Path (path_str (joinpath b s))) = true.
Proof.
  intros Hb Ha. rewrite Path_path_str by now apply joinpath_ok.
  now apply joinpath_absolute.
Qed.

(** X7.  With absolute base directories, every value that a successful
    [_set_absolute_paths] has joined to a base directory is the string of an
    absolute path: each entry of a mapping under ["resources"], and each leaf
    other than [None] under a key with ["path"] or ["location"], at any
    depth. *)
Theorem set_absolute_paths_absolute wd rd t t' :
  path_ok wd = true -> is_absolute wd = true ->
  path_ok rd = true -> is_absolute rd = true ->
  wf t = true ->
  _set_absolute_paths wd rd t = Return t' ->
  joined_values is_absolute_str t' = true.
Proof.
  intros Hwo Hwa Hro Hra. revert t'.
  induction t as [ | b | z | f | s | l _ | d IH] using value_tree_ind;
    intros t' Hwf H; try discriminate.
  rewrite set_absolute_paths_map in H by exact Hwf.
  destruct (map_items (resolved_pair wd rd) d) as [d' | | ] eqn:Hm; simpl in H; try discriminate.
  injection H as <-. apply wf_dict_inv in Hwf as [_ Hwf].
  cbn [joined_values]. apply (map_items_forallb _ _ _ _ Hm).
  intros k v v' Hin Hr. cbn [fst snd].
  rewrite Forall_forall in IH, Hwf.
  specialize (IH _ Hin). specialize (Hwf _ Hin). cbn [snd] in IH, Hwf.
  destruct v as [ | b | z | f | s | l | sub]; unfold resolved_pair in Hr;
    try (destruct (contains "path" k) eqn:Ep; cbn [orb];
         [ | destruct (contains "location" k) eqn:El];
         [ destruct (joinpath_of wd _) as [p | | ] eqn:E; simpl in Hr; try discriminate;
           injection Hr as <-; apply joinpath_of_inv in E as (s0 & Hs & ->);
           cbn [is_absolute_str]; now apply joined_is_absolute
         | destruct (joinpath_of rd _) as [p | | ] eqn:E; simpl in Hr; try discriminate;
           injection Hr as <-; apply joinpath_of_inv in E as (s0 & Hs & ->);
           cbn [is_absolute_str]; now apply joined_is_absolute
         | injection Hr as <-; reflexivity ]).
  - now injection Hr as <-.
  - destruct (String.eqb (strip k) "resources") eqn:Er.
    + destruct (map_items (resource_entry rd) sub) as [sub' | | ] eqn:Es;
        simpl in Hr; try discriminate.
      injection Hr as <-.
      apply (map_items_forallb _ (fun sv => is_absolute_str (snd sv)) _ _ Es).
      intros k0 v0 v0' _ H0. unfold resource_entry in H0.
      destruct (joinpath_of rd v0) as [p | | ] eqn:E; simpl in H0; try discriminate.
      injection H0 as <-. apply joinpath_of_inv in E as (s0 & _ & ->).
      cbn [snd is_absolute_str]. now apply joined_is_absolute.
    + pose proof (set_absolute_paths_returns_dict wd rd _ _ Hr) as Hd.
      destruct v' as [ | | | | | | sub']; try discriminate.
      now apply IH.
Qed.

Lemma set_absolute_paths_absolute_witness :
  joined_values is_absolute_str
    (VDict [("model", VDict [("weights_path", VStr "/home/u/w.bin")]);
            (" resources ", VDict [("icon", VStr "/home/u/res/logo.png")]);
            ("data_location", VStr "/home/u/res/d.csv");
            ("names", VList [VStr "path"]);
            ("log_path", VNone)]) = true.
Proof.
  apply (set_absolute_paths_absolute (Path "/home/u") (Path "/home/u/res")
           (VDict example_paths_tree)); reflexivity.
Defined.

(** * More on the load pipeline *)

Lemma read_config_inv w s out v :
  _read_config w (VStr s) = (out, Return v) ->
  files w s = Some (Document v) /\ v <> VNone.
Proof.
  unfold _read_config. destruct (files w s) as [[ | c] | ]; try discriminate.
  destruct c; simpl; try discriminate; intros [= _ <-]; split; (reflexivity || discriminate).
Qed.

(** X8.  [_load_config] gets its two trees exactly when the default source
    exists, parses and is not empty, and the user source either does not
    exist, the local tree then being the empty mapping, or exists, parses and
    is not empty; nothing is printed, and neither tree is [None].  A user
    source that exists and does not parse is an exception for the caller. *)
Theorem read_sources_returns_iff w self config local_config :
  (snd (read_sources w self) = Return (config, local_config) <->
   files w (_default_source self) = Some (Document config) /\
   config <> VNone /\
   local_tree w self local_config) /\
  (snd (read_sources w self) = Return (config, local_config) ->
   fst (read_sources w self) = [] /\ config <> VNone /\ local_config <> VNone) /\
  (files w (_default_source self) = Some (Document config) -> config <> VNone ->
   files w (_user_source self) = Some Unparseable ->
   _load_config w self = ([], Raise YAMLError)).
Proof.
  assert (snd (read_sources w self) = Return (config, local_config) ->
          fst (read_sources w self) = [] /\
          files w (_default_source self) = Some (Document config) /\
          config <> VNone /\
          local_tree w self local_config) as Hinv.
  { destruct (read_sources w self) as [out r] eqn:E. cbn [fst snd]. intros ->.
    pose proof (read_sources_silent _ _ _ _ E) as ->. split; [reflexivity | ].
    unfold read_sources in E.
    apply pbind_return_inv in E as (o1 & c & o & H1 & H & _).
    apply pbind_return_inv in H as (o2 & c2 & o3 & H2 & H3 & _).
    injection H3 as _ <- <-.
    apply read_config_inv in H1 as [Hd Hc]. repeat split; try assumption.
    unfold local_tree, exists_ in *.
    destruct (files w (_user_source self)) as [f | ] eqn:Hu.
    - apply read_config_inv in H2 as [Hf Hn]. rewrite Hu in Hf. injection Hf as ->.
      now split.
    - now injection H2 as _ <-. }
  split; [split | split].
  - intros H. apply Hinv in H. tauto.
  - intros (Hd & Hc & Hl). now rewrite (read_sources_local w self config local_config).
  - intros H. destruct (Hinv H) as (Ho & Hd & Hc & Hl).
    split; [exact Ho | split; [exact Hc | ]].
    unfold local_tree in Hl.
    destruct (files w (_user_source self)); [tauto | subst; discriminate].
  - intros Hd Hc Hu. unfold _load_config, read_sources.
    rewrite (read_config_document w _ config Hd Hc).
    unfold exists_, _read_config. now rewrite Hu.
Qed.

Lemma read_sources_returns_iff_witness :
  snd (read_sources (example_world None (Some (Document example_default))) example_config)
  = Return (example_default, VDict []) /\
  _load_config (example_world (Some Unparseable) (Some (Document example_default)))
    example_config = ([], Raise YAMLError).
Proof.
  split.
  - apply (proj1 (read_sources_returns_iff
                    (example_world None (Some (Document example_default)))
                    example_config example_default (VDict []))).
    repeat split. discriminate.
  - apply (proj2 (proj2 (read_sources_returns_iff
                    (example_world (Some Unparseable) (Some (Document example_default)))
                    example_config example_default (VDict [])))).
    + reflexivity.
    + discriminate.
    + reflexivity.
Defined.

(** X9.  When the last stage of [_load_config] returns, the ["general"]
    section of the merged tree held two strings under ["working_dir"] and
    ["resources_dir"]; the instance keeps the two as absolute paths; in the
    returned tree ["working_dir"] is the string of the absolute working
    directory, while ["resources_dir"] is left as it was written. *)
Theorem load_sets_directories w self m self' config :
  wf m = true ->
  resolve_config w self m = Return (self', config) ->
  exists wds rds,
    lookup_path ["general"; "working_dir"] m = Some (VStr wds) /\
    lookup_path ["general"; "resources_dir"] m = Some (VStr rds) /\
    _working_dir self' = Some (absolute (cwd w) (Path wds)) /\
    _resources_dir self' = Some (absolute (cwd w) (Path rds)) /\
    lookup_path ["general"; "working_dir"] config =
      Some (VStr (path_str (absolute (cwd w) (Path wds)))) /\
    lookup_path ["general"; "resources_dir"] config = Some (VStr rds).
Proof.
  intros Hwf H.
  destruct (resolve_config_inv w self m self' config Hwf H)
    as (cm & g0 & wds & rds & d & -> & Hg & Hw & Hr & Hwf1 & Hs & -> & ->).
  exists wds, rds.
  set (wd := absolute (cwd w) (Path wds)) in *.
  set (rd := absolute (cwd w) (Path rds)) in *.
  set (g1 := dict_set g0 "working_dir" (VStr (path_str wd))) in *.
  rewrite set_absolute_paths_map in Hs by exact Hwf1.
  destruct (map_items _ (dict_set cm "general" (VDict g1))) as [d1 | | ] eqn:Hm;
    simpl in Hs; try discriminate.
  injection Hs as <-.
  destruct (Forall2_dict_get _ _ _ (map_items_Forall2 _ _ _ Hm) "general" (VDict g1))
    as (v' & Hv' & Hpair); [apply dict_get_set_same | ].
  change (resolved_pair wd rd "general" (VDict g1))
    with (_set_absolute_paths wd rd (VDict g1)) in Hpair.
  assert (wf (VDict g1) = true) as Hwfg.
  { apply (wf_dict_get _ "general" _ Hwf1). apply dict_get_set_same. }
  rewrite set_absolute_paths_map in Hpair by exact Hwfg.
  destruct (map_items _ g1) as [gm | | ] eqn:Hmg; simpl in Hpair; try discriminate.
  injection Hpair as <-.
  pose proof (Forall2_dict_get _ _ _ (map_items_Forall2 _ _ _ Hmg)) as Hget.
  destruct (Hget "working_dir" (VStr (path_str wd))) as (x & Hx & Hrx);
    [apply dict_get_set_same | ].
  destruct (Hget "resources_dir" (VStr rds)) as (y & Hy & Hry).
  { unfold g1. rewrite dict_get_set_other by discriminate. exact Hr. }
  injection Hrx as <-. injection Hry as <-.
  simpl lookup_path. rewrite Hg, Hw, Hr, Hv', Hx, Hy. repeat split.
Qed.

Lemma load_sets_directories_witness :
  exists wds rds,
    lookup_path ["general"; "working_dir"] example_default = Some (VStr wds) /\
    lookup_path ["general"; "resources_dir"] example_default = Some (VStr rds) /\
    Some (Path "/home/u") = Some (absolute "/home/u" (Path wds)) /\
    Some (Path "/home/u/res") = Some (absolute "/home/u" (Path rds)) /\
    lookup_path ["general"; "working_dir"]
      (VDict [("general", VDict [("working_dir", VStr "/home/u");
                                 ("resources_dir", VStr "./res");
                                 ("timeout", VInt 30)]);
              ("model", VDict [("weights_path", VStr "/home/u/w.bin")]);
              ("resources", VDict [("icon", VStr "/home/u/res/logo.png")]);
              ("feature", VDict [("threshold", VInt 5)]);
              ("extra", VNone)]) =
      Some (VStr (path_str (absolute "/home/u" (Path wds)))) /\
    lookup_path ["general"; "resources_dir"]
      (VDict [("general", VDict [("working_dir", VStr "/home/u");
                                 ("resources_dir", VStr "./res");
                                 ("timeout", VInt 30)]);
              ("model", VDict [("weights_path", VStr "/home/u/w.bin")]);
              ("resources", VDict [("icon", VStr "/home/u/res/logo.png")]);
              ("feature", VDict [("threshold", VInt 5)]);
              ("extra", VNone)]) = Some (VStr rds).
Proof.
  apply (load_sets_directories (example_world None (Some (Document example_default)))
           example_config example_default
           {| _keys := []; _user_source := "configs/config.yaml";
                    _default_source := "configs/config-default.yaml";
                    _working_dir := Some (Path "/home/u");
                    _resources_dir := Some (Path "/home/u/res");
                    sections := [] |}); reflexivity.
Defined.

Lemma forallb_dict_set (g : string * value -> bool) d k old new :
  dict_get d k = Some old -> g (k, new) = g (k, old) ->
  forallb g (dict_set d k new) = forallb g d.
Proof.
  induction d as [ | [k0 v0] d IH]; simpl; [discriminate | ].
  destruct (String.eqb k0 k) eqn:E.
  - apply String.eqb_eq in E. subst k0. intros [= ->] Hg. simpl. now rewrite Hg.
  - intros Hk Hg. simpl. now rewrite IH.
Qed.

(** Writing the working directory back does not change which values the
    pass has to join. *)
Lemma joined_values_working_dir ok cm g0 wds s :
  dict_get cm "general" = Some (VDict g0) ->
  dict_get g0 "working_dir" = Some (VStr wds) ->
  joined_values ok (VDict (dict_set cm "general"
                             (VDict (dict_set g0 "working_dir" (VStr s))))) =
  joined_values ok (VDict cm).
Proof.
  intros Hg Hw. cbn [joined_values].
  apply (forallb_dict_set _ cm "general" (VDict g0)); [exact Hg | ].
  cbn [fst snd].
  change (String.eqb (strip "general") "resources") with false. cbv iota.
  cbn [joined_values].
  now apply (forallb_dict_set _ g0 "working_dir" (VStr wds)).
Qed.

Lemma bind_raise_inv {A B} (m : outcome A) (f : A -> outcome B) e :
  bind m f = Raise e -> m = Raise e \/ exists a, m = Return a /\ f a = Raise e.
Proof.
  destruct m as [a | e0 | c]; simpl; try discriminate.
  - intros H. right. now exists a.
  - intros [= ->]. now left.
Qed.

Lemma getitem_raise x k e : getitem x k = Raise e -> e = KeyError \/ e = TypeError.
Proof.
  destruct x; simpl; try (intros [= <-]; now right).
  destruct (dict_get items k); [discriminate | intros [= <-]; now left].
Qed.

Lemma Path_of_raise x e : Path_of x = Raise e -> e = TypeError.
Proof. destruct x; simpl; try discriminate; now intros [= <-]. Qed.

Lemma setitem_raise x k v e : setitem x k v = Raise e -> e = TypeError.
Proof. destruct x; simpl; try discriminate; now intros [= <-]. Qed.

Lemma joinpath_of_raise b x e : joinpath_of b x = Raise e -> e = TypeError.
Proof. destruct x; simpl; try discriminate; now intros [= <-]. Qed.

Lemma resources_items_raise rd items : forall d e,
  resources_items rd items d = Raise e -> e = TypeError.
Proof.
  induction items as [ | [k v] items IH]; intros d e; simpl; [discriminate | ].
  intros H. apply bind_raise_inv in H as [H | (p & _ & H)].
  - now apply joinpath_of_raise in H.
  - now apply IH in H.
Qed.

Lemma paths_items_raise wd rd rec items :
  Forall (fun kv => is_dict (snd kv) = true ->
                    forall e, rec (snd kv) = Raise e -> e = TypeError) items ->
  forall d e, paths_items wd rd rec items d = Raise e -> e = TypeError.
Proof.
  induction 1 as [ | [k v] items Hv _ IH]; intros d e; simpl; [discriminate | ].
  assert (forall b (K : PurePath -> outcome dict),
            (forall p, K p = Raise e -> e = TypeError) ->
            (p <- joinpath_of b v ;; K p) = Raise e -> e = TypeError) as Hj.
  { intros b K HK H. apply bind_raise_inv in H as [H | (p & _ & H)].
    - now apply joinpath_of_raise in H.
    - now apply HK in H. }
  destruct v as [ | b | z | f | s | l | sub];
    try (destruct (contains "path" k); [apply Hj; intros p; apply IH | ];
         destruct (contains "location" k); [apply Hj; intros p; apply IH | apply IH]).
  - apply IH.
  - destruct (String.eqb (strip k) "resources"); intros H;
      apply bind_raise_inv in H as [H | (x & _ & H)].
    + now apply resources_items_raise in H.
    + now apply IH in H.
    + now apply (Hv eq_refl) in H.
    + now apply IH in H.
Qed.

Lemma set_absolute_paths_raise wd rd v :
  is_dict v = true -> forall e, _set_absolute_paths wd rd v = Raise e -> e = TypeError.
Proof.
  induction v as [ | b | z | f | s | l _ | d IH] using value_tree_ind; intros Hd e;
    try discriminate.
  simpl. intros H. apply bind_raise_inv in H as [H | (x & _ & H)]; [ | discriminate].
  now apply (paths_items_raise wd rd _ d IH) in H.
Qed.

(** X10.  For a merged tree, the last stage of [_load_config] returns
    exactly when the ["general"] section holds a string under ["working_dir"]
    and under ["resources_dir"] and every value that the path pass has to
    join is a string; a failure is a [KeyError] or a [TypeError] for the
    caller, and never an exit. *)
Theorem load_resolves_iff w self m :
  wf m = true ->
  ((exists r, resolve_config w self m = Return r) <->
   (exists wds rds,
      lookup_path ["general"; "working_dir"] m = Some (VStr wds) /\
      lookup_path ["general"; "resources_dir"] m = Some (VStr rds) /\
      joined_values is_str m = true)) /\
  (forall e, resolve_config w self m = Raise e -> e = KeyError \/ e = TypeError) /\
  (forall c, resolve_config w self m <> Exit c).
Proof.
  intros Hwf. split; [split | split].
  - intros ([self' config] & H).
    destruct (resolve_config_inv w self m self' config Hwf H)
      as (cm & g0 & wds & rds & d & -> & Hg & Hw & Hr & Hwf1 & Hs & _).
    exists wds, rds. simpl lookup_path. rewrite Hg, Hw, Hr. repeat split.
    rewrite <- (joined_values_working_dir is_str cm g0 wds
                  (path_str (absolute (cwd w) (Path wds))) Hg Hw).
    destruct (joined_values is_str _) eqn:E; [reflexivity | ].
    apply (set_absolute_paths_decided (absolute (cwd w) (Path wds))
             (absolute (cwd w) (Path rds)) _ Hwf1 eq_refl) in E. congruence.
  - intros (wds & rds & Hw & Hr & Hj).
    apply lookup_path_cons_inv in Hw as (cm & g & -> & Hg & Hw).
    apply lookup_path_cons_inv in Hw as (g0 & x & -> & Hw & [= ->]).
    simpl in Hr. rewrite Hg in Hr.
    destruct (dict_get g0 "resources_dir") as [y | ] eqn:Hr'; [ | discriminate].
    injection Hr as ->.
    assert (wf (VDict (dict_set cm "general"
                 (VDict (dict_set g0 "working_dir"
                           (VStr (path_str (absolute (cwd w) (Path wds)))))))) = true)
      as Hwf1.
    { apply (wf_dict_set cm "general" _ (VDict g0) Hwf); [ | exact Hg].
      apply (wf_dict_set g0 "working_dir" _ (VStr wds)); [ | reflexivity | exact Hw].
      now apply (wf_dict_get cm "general"). }
    rewrite <- (joined_values_working_dir is_str cm g0 wds
                  (path_str (absolute (cwd w) (Path wds))) Hg Hw) in Hj.
    destruct (proj1 (set_absolute_paths_decided
                       (absolute (cwd w) (Path wds)) (absolute (cwd w) (Path rds))
                       _ Hwf1 eq_refl) Hj) as (d' & Hs).
    unfold resolve_config. cbn [getitem]. rewrite Hg. cbn [bind getitem].
    rewrite Hw, Hr'. cbn [bind Path_of setitem]. rewrite Hs. cbn [bind].
    now eexists.
  - intros e H. unfold resolve_config in H.
    apply bind_raise_inv in H as [H | (a1 & _ & H)]; [now apply getitem_raise in H | ].
    apply bind_raise_inv in H as [H | (a2 & _ & H)]; [now apply getitem_raise in H | ].
    apply bind_raise_inv in H as [H | (a3 & _ & H)]; [right; now apply Path_of_raise in H | ].
    apply bind_raise_inv in H as [H | (a4 & _ & H)]; [now apply getitem_raise in H | ].
    apply bind_raise_inv in H as [H | (a5 & _ & H)]; [now apply getitem_raise in H | ].
    apply bind_raise_inv in H as [H | (a6 & _ & H)]; [right; now apply Path_of_raise in H | ].
    apply bind_raise_inv in H as [H | (a7 & _ & H)]; [now apply getitem_raise in H | ].
    apply bind_raise_inv in H as [H | (a8 & _ & H)]; [right; now apply setitem_raise in H | ].
    apply bind_raise_inv in H as [H | (a9 & E9 & H)]; [right; now apply setitem_raise in H | ].
    apply bind_raise_inv in H as [H | (a10 & _ & H)]; [ | discriminate].
    right. apply set_absolute_paths_raise in H; [exact H | ].
    destruct m; simpl in E9; try discriminate. now injection E9 as <-.
  - apply resolve_config_no_exit.
Qed.

Lemma load_resolves_iff_witness :
  exists r, resolve_config (example_world None (Some (Document example_default)))
              example_config example_default = Return r.
Proof.
  apply (proj1 (load_resolves_iff (example_world None (Some (Document example_default)))
                  example_config example_default eq_refl)).
  exists ".", "./res". repeat split.
Defined.

(** * More on the store *)














